(** * api-billing-connector: local credit accounting and reconciliation

    A shallow embedding of the three source files of the connector
    ([billing-account.js], [origin-matcher.js], [websocket-channel.js], the
    last one also holding [BillingService]) together with the properties
    the design document states about them.

    Conventions of the embedding:
    - a JavaScript [Number] is an IEEE 754 binary64 value: the primitive
      [float] of the prover, whose [+], [-] and [<] round and compare as
      the JavaScript operators do;
    - a lookup on a plain object finds the object's own property, else
      the member of [Object.prototype] of that name as the runtime defines
      it, else [undefined]; what a run itself stores on such a member or
      on [Object.prototype] (a charge of the category [__proto__] puts its
      counter there) is not followed;
    - [+] on an object or a string concatenates, and the resulting string
      never reads as a number;
    - the own properties of an object are listed with the array indices
      first, in ascending order, then the other keys in order of creation;
      an object built by assignment has no own property [__proto__];
    - a JavaScript string is the [string] of its code units, all below 256;
    - a method that mutates [this] returns the new object next to its
      result; a method that can throw returns a [completion]. *)

From Stdlib Require Import ZArith String Ascii List Bool Lia PArith.
From Stdlib Require Import Floats.
From Stdlib Require Uint63.
From stdpp Require Import base option list strings gmap fin_maps.
Import ListNotations.

#[local] Set Warnings "-inexact-float".

Local Open Scope string_scope.
Local Open Scope Z_scope.

(** ** JavaScript values used by the connector *)

(** A [Number]. *)
Abbreviation Number := PrimFloat.float.

Inductive JsValue : Type :=
| Undefined
| Num (n : Number)
| Str
| Obj.

(** [ToNumber(v)]: [undefined], a function or object of [Object.prototype],
    and a string that holds the text of one, all give [NaN]. *)
Definition ToNumber (v : JsValue) : Number :=
  match v with
  | Num n => n
  | _ => PrimFloat.nan
  end.

(** [a + b]: with an object or a string on either side the operands are
    concatenated as strings, otherwise they are added as numbers. *)
Definition js_add (a b : JsValue) : JsValue :=
  match a, b with
  | (Str | Obj), _ | _, (Str | Obj) => Str
  | _, _ => Num (ToNumber a + ToNumber b)%float
  end.

(** [v++] and [++v] store [ToNumber(v) + 1]. *)
Definition js_incr (v : JsValue) : JsValue := Num (ToNumber v + 1)%float.

(** The double of a whole number [0 <= n < 2^63]. *)
Definition whole (n : Z) : Number := PrimFloat.of_uint63 (Uint63Axioms.of_Z n).

(** [Number.MAX_SAFE_INTEGER] *)
Definition max_safe : Z := 2 ^ 53 - 1.

(** Outcome of a call that may throw. *)
Inductive completion (A : Type) : Type :=
| Return (a : A)
| Throw.
Arguments Return {A} a.
Arguments Throw {A}.

(** ** billing-account.js *)

Module BillingAccount.

Record t : Type := mk {
  id : string;
  apiKeys : option (list string);
  origins : option (list string);
  balance : Number;
  chargedBalance : JsValue
}.

(** [new BillingAccount(id)]: the class fields [apiKeys] and [origins]
    have no initialiser, both balances start at 0. *)
Definition new (i : string) : t :=
  mk i None None 0%float (Num 0%float).

Definition set_balance (b : Number) (a : t) : t :=
  mk (id a) (apiKeys a) (origins a) b (chargedBalance a).

Definition set_chargedBalance (c : JsValue) (a : t) : t :=
  mk (id a) (apiKeys a) (origins a) (balance a) c.

(** [get currentBalance()] *)
Definition currentBalance (a : t) : Number :=
  (balance a - ToNumber (chargedBalance a))%float.

(** [tryCharge(amount)]: the account after the call and the returned
    boolean. The left side of [<] is a number, so the right side is
    compared as a number. *)
Definition tryCharge (a : t) (amount : JsValue) : t * bool :=
  if (currentBalance a <? ToNumber amount)%float then (a, false)
  else (set_chargedBalance (js_add (chargedBalance a) amount) a, true).

(** The property bag of an [accounts-update] record; an absent property
    is [None]. *)
Record props : Type := mkProps {
  p_id : string;
  p_apiKeys : option (list string);
  p_origins : option (list string);
  p_balance : option Number;
  p_chargedBalance : option Number
}.

(** [Object.assign(account, accountProps)] *)
Definition assign (a : t) (p : props) : t :=
  mk (p_id p)
     (match p_apiKeys p with Some k => Some k | None => apiKeys a end)
     (match p_origins p with Some o => Some o | None => origins a end)
     (default (balance a) (p_balance p))
     (match p_chargedBalance p with Some c => Num c | None => chargedBalance a end).

(** [update(accountProps)] *)
Definition update (a : t) (p : props) : t := assign a p.

(** A run of [tryCharge] calls on one account: the account after each
    call, in order. *)
Fixpoint charges (a : t) (amounts : list JsValue) : list t :=
  match amounts with
  | [] => []
  | x :: rest => let a' := fst (tryCharge a x) in a' :: charges a' rest
  end.

End BillingAccount.

(** ** Whole numbers as doubles

    The form in which the specification of binary64 holds a whole number
    of at most 53 bits; the exactness lemmas on [whole] go through it. *)

(** [c * 2^n] on positives. *)
Definition shl (c : positive) (n : nat) : positive := Pos.shiftl_nat c n.

(** A positive whole number with its mantissa shifted to 53 bits. *)
Definition canonP (c : positive) : spec_float :=
  S754_finite false (shl c (Z.to_nat (53 - Zpos (Pos.size c)))) (Zpos (Pos.size c) - 53).

(** The double a whole number [0 <= c <= max_safe] converts to. *)
Definition canon (c : Z) : spec_float :=
  match c with
  | Zpos p => canonP p
  | _ => S754_zero false
  end.

(** ** String primitives of the JavaScript runtime *)

Module Js.

(** [s.startsWith(p)] *)
Definition startsWith (s p : string) : bool := String.prefix p s.

(** [s.indexOf(p)]; [None] stands for -1. *)
Fixpoint indexOf (s p : string) : option nat :=
  if String.prefix p s then Some O
  else match s with
       | EmptyString => None
       | String _ s' => S <$> indexOf s' p
       end.

(** [s.includes(p)] *)
Definition includes (s p : string) : bool :=
  match indexOf s p with Some _ => true | None => false end.

(** [s.substring(0, n)] *)
Fixpoint take (n : nat) (s : string) : string :=
  match n, s with
  | S n', String c s' => String c (take n' s')
  | _, _ => EmptyString
  end.

(** [s.substring(n)] *)
Fixpoint substring (n : nat) (s : string) : string :=
  match n, s with
  | S n', String _ s' => substring n' s'
  | _, _ => s
  end.

(** [s.replace(p, r)] with a string pattern: the first occurrence only. *)
Definition replace (s p r : string) : string :=
  match indexOf s p with
  | None => s
  | Some i => take i s ++ r ++ substring (i + String.length p) s
  end.

(** [s.endsWith(p)] *)
Definition endsWith (s p : string) : bool :=
  String.eqb (substring (String.length s - String.length p) s) p
  && (String.length p <=? String.length s)%nat.

(** The lower-case mapping of a code unit below 256: [A-Z] and the
    capital letters of Latin-1 (U+00C0 to U+00DE but the sign U+00D7);
    each maps to the code unit 32 above it. *)
Definition lower (c : ascii) : ascii :=
  let n := nat_of_ascii c in
  if ((65 <=? n) && (n <=? 90)
      || (192 <=? n) && (n <=? 222) && negb (n =? 215))%nat
  then ascii_of_nat (n + 32) else c.

(** [s.toLowerCase()] *)
Fixpoint toLowerCase (s : string) : string :=
  match s with
  | EmptyString => EmptyString
  | String c s' => String (lower c) (toLowerCase s')
  end.

(** The character class [\w]: [A-Za-z0-9_]. *)
Definition is_word (c : ascii) : bool :=
  let n := nat_of_ascii c in
  ((65 <=? n) && (n <=? 90) || (97 <=? n) && (n <=? 122)
   || (48 <=? n) && (n <=? 57) || (n =? 95))%nat.

(** [\w+] followed by the continuation [k], with the backtracking of the
    regular expression engine: the longest run is tried first. *)
Fixpoint word_plus (k : string -> bool) (s : string) : bool :=
  match s with
  | EmptyString => false
  | String c s' => if is_word c then word_plus k s' || k s' else false
  end.

(** [/\w+\.\w+$/] anchored at the first character of [s]. *)
Definition domain_here (s : string) : bool :=
  word_plus (fun s1 =>
    match s1 with
    | String "."%char s2 =>
        word_plus (fun s3 => match s3 with EmptyString => true | _ => false end) s2
    | _ => false
    end) s.

(** [/\w+\.\w+$/.exec(s)]: start positions are tried from the left; the
    match, when there is one, runs to the end of the input, so element
    [0] of the result is the suffix that starts there. [None] is [null]. *)
Fixpoint exec_domain (s : string) : option string :=
  if domain_here s then Some s
  else match s with
       | EmptyString => None
       | String _ s' => exec_domain s'
       end.

(** [s.split(' ')] *)
Fixpoint split_space (s : string) : list string :=
  match s with
  | EmptyString => [EmptyString]
  | String c s' =>
      if Ascii.eqb c " "%char then EmptyString :: split_space s'
      else match split_space s' with
           | w :: ws => String c w :: ws
           | [] => [String c EmptyString]
           end
  end.

(** [s.replace(/^https?:\/\//, '')] *)
Definition strip_scheme (s : string) : string :=
  if String.prefix "http://" s then substring 7 s
  else if String.prefix "https://" s then substring 8 s
  else s.

(** [String(v)] for an argument that is a string or missing. *)
Definition ToString (v : option string) : string :=
  match v with
  | Some s => s
  | None => "undefined"
  end.

(** The names an object literal [{}] inherits from [Object.prototype]. *)
Definition proto_members : list string :=
  ["constructor"; "__proto__"; "hasOwnProperty"; "isPrototypeOf";
   "propertyIsEnumerable"; "toLocaleString"; "toString"; "valueOf";
   "__defineGetter__"; "__defineSetter__"; "__lookupGetter__";
   "__lookupSetter__"].

Definition proto_member (k : string) : bool :=
  existsb (String.eqb k) proto_members.

(** What [obj[k]] finds on an object made by [{}]: an own property, else
    a member of [Object.prototype] (a function, or the prototype itself
    for [__proto__]; all truthy and none of them callable as an account),
    else [undefined]. *)
Inductive slot (A : Type) : Type :=
| Own (a : A)
| Inherited
| Absent.
Arguments Own {A} a.
Arguments Inherited {A}.
Arguments Absent {A}.

(** [obj[k]], given the own property [k] of [obj], if any. *)
Definition read {A : Type} (own : option A) (k : string) : slot A :=
  match own with
  | Some a => Own a
  | None => if proto_member k then Inherited else Absent
  end.

(** The value of a string of decimal digits. *)
Fixpoint digits_value (acc : N) (s : string) : option N :=
  match s with
  | EmptyString => Some acc
  | String c s' =>
      let n := N_of_ascii c in
      if ((48 <=? n) && (n <=? 57))%N
      then digits_value (acc * 10 + (n - 48))%N s'
      else None
  end.

(** A property key that is an array index: the canonical decimal form
    of an integer from 0 to 2^32 - 2. Such keys are enumerated first, in
    ascending order; the other keys follow in order of creation. *)
Definition array_index (k : string) : option N :=
  match k with
  | EmptyString => None
  | String "0"%char EmptyString => Some 0%N
  | String "0"%char _ => None
  | _ => match digits_value 0%N k with
         | Some n => if (n <? 2 ^ 32 - 1)%N then Some n else None
         | None => None
         end
  end.

(** A new key [k] is enumerated before the existing key [k']. *)
Definition precedes (k k' : string) : bool :=
  match array_index k, array_index k' with
  | Some n, Some n' => (n <? n')%N
  | Some _, None => true
  | None, _ => false
  end.

End Js.

(** ** origin-matcher.js *)

Module OriginMatcher.

Record t : Type := mk {
  wildcards : gset string;
  list : gset string
}.

(** One iteration of the constructor's loop. *)
Definition add_origin (m : t) (origin : string) : t :=
  if Js.includes origin "*." then
    mk ({[ Js.substring (default O (Js.indexOf origin "*.") + 2) origin ]} ∪ wildcards m)
       ({[ Js.replace origin "*." "" ]} ∪ list m)
  else
    mk (wildcards m) ({[ origin ]} ∪ list m).

(** [new OriginMatcher(allowlist)] *)
Definition new (allowlist : Datatypes.list string) : t :=
  foldl add_origin (mk ∅ ∅) allowlist.

(** [set.has(v)] on a set of strings; [undefined] is never a member. *)
Definition has (s : gset string) (v : option string) : bool :=
  match v with
  | Some x => bool_decide (x ∈ s)
  | None => false
  end.

(** [match(origin)] of origin-matcher.js; a missing argument is [None].
    Indexing the [null] that [exec] returns when nothing matches throws
    a [TypeError]. *)
Definition match_ (m : t) (origin : option string) : completion bool :=
  if has (list m) origin then Return true
  else match Js.exec_domain (Js.ToString origin) with
       | None => Throw
       | Some d => if bool_decide (d ∈ wildcards m) then Return true else Return false
       end.

(** [match(origin)] of the copy of the class that follows
    [BillingAccount] in billing-account.js: falsy origins and origins
    without a match of the expression are rejected first. *)
Definition match_guarded (m : t) (origin : option string) : completion bool :=
  match origin with
  | None | Some EmptyString => Return false
  | Some o =>
      if has (list m) origin then Return true
      else match Js.exec_domain o with
           | Some d => if bool_decide (d ∈ wildcards m) then Return true else Return false
           | None => Return false
           end
  end.

End OriginMatcher.

(** ** websocket-channel.js: the connection channel *)

(** The pending-charges ledger: [{accountId: {category: [count, credits]}}]. *)
Abbreviation ledger := (gmap string (gmap string (JsValue * JsValue))).

Module WebSocketChannel.

Inductive WebSocketStatus : Type :=
| disconnected
| connected.

Global Instance WebSocketStatus_eq_dec : EqDecision WebSocketStatus.
Proof. solve_decision. Defined.

(** Calls the channel makes on its environment, oldest first. A socket
    is named by the rank of the [new WebSocket] that made it. *)
Inductive effect : Type :=
| Open (sock : nat)
| SockClose (sock : nat)
| SockTerminate (sock : nat)
| SockSend (sock : nat) (data : ledger)
| SetReconnectTimer
| StatusChange (newStatus prevStatus : WebSocketStatus)
| LogTokenRejected.

Record t : Type := mk {
  autoReconnect : option bool;
  status : WebSocketStatus;
  ws : option nat;
  (* environment of the object *)
  opened : nat;
  reconnectTimers : nat;
  effects : list effect
}.

(** The constructor: [status] is ['disconnected'], [autoReconnect] and
    [ws] are not set. *)
Definition new : t := mk None disconnected None O O [].

Definition emit (e : effect) (c : t) : t :=
  mk (autoReconnect c) (status c) (ws c) (opened c) (reconnectTimers c)
     (effects c ++ [e]).

(** [connect()] *)
Definition connect (c : t) : t :=
  emit (Open (opened c))
    (mk (Some true) (status c) (Some (opened c)) (S (opened c))
        (reconnectTimers c) (effects c)).

(** [notify(message)]: the flag tells whether the returned promise is
    fulfilled. Without a socket the call on [this.ws] throws; with one,
    [send_ok] is whether [ws.send] returns normally. *)
Definition notify (send_ok : bool) (data : ledger) (c : t) : t * bool :=
  match ws c with
  | None => (c, false)
  | Some i => (emit (SockSend i data) c, send_ok)
  end.

(** [close()] *)
Definition close (c : t) : t :=
  let c1 := mk (Some false) (status c) (ws c) (opened c) (reconnectTimers c)
               (effects c) in
  match ws c1 with
  | Some i => emit (SockClose i) c1
  | None => c1
  end.

(** [changeStatus(newStatus)] *)
Definition changeStatus (newStatus : WebSocketStatus) (c : t) : t :=
  let prevStatus := status c in
  if decide (prevStatus = newStatus) then c
  else emit (StatusChange newStatus prevStatus)
         (mk (autoReconnect c) newStatus (ws c) (opened c) (reconnectTimers c)
             (effects c)).

(** The part of [onMessage] that touches the channel; the parsed message
    goes to the service's handler. *)
Definition onMessage (c : t) : t := changeStatus connected c.

Definition setReconnectTimer (c : t) : t :=
  emit SetReconnectTimer
    (mk (autoReconnect c) (status c) (ws c) (opened c) (S (reconnectTimers c))
        (effects c)).

(** [onClose(errorCode)] *)
Definition onClose (errorCode : Z) (c : t) : t :=
  let c1 := match ws c with Some i => emit (SockTerminate i) c | None => c end in
  let c2 := mk (autoReconnect c1) (status c1) None (opened c1)
               (reconnectTimers c1) (effects c1) in
  let c3 := if errorCode =? 1008
            then mk (Some false) (status c2) (ws c2) (opened c2)
                    (reconnectTimers c2) (effects (emit LogTokenRejected c2))
            else c2 in
  let c4 := changeStatus disconnected c3 in
  match autoReconnect c4 with
  | Some true => setReconnectTimer c4
  | _ => c4
  end.

(** [onError(error)] *)
Definition onError (c : t) : t :=
  setReconnectTimer (close (changeStatus disconnected c)).

(** A reconnect timer goes off: its callback is [() => this.connect()]. *)
Definition reconnectTimerFires (c : t) : t :=
  match reconnectTimers c with
  | O => c
  | S n => connect (mk (autoReconnect c) (status c) (ws c) (opened c) n (effects c))
  end.

(** What happens to a channel: calls of its client and callbacks of its
    environment. *)
Inductive event : Type :=
| EConnect
| EClose
| EMessage
| ESockClose (errorCode : Z)
| ESockError
| EReconnectTimer.

Definition step (c : t) (e : event) : t :=
  match e with
  | EConnect => connect c
  | EClose => close c
  | EMessage => onMessage c
  | ESockClose code => onClose code c
  | ESockError => onError c
  | EReconnectTimer => reconnectTimerFires c
  end.

Definition run (c : t) (es : list event) : t := foldl step c es.

End WebSocketChannel.

(** ** websocket-channel.js: the billing service *)

Module BillingService.

(** The account table [{id: BillingAccount}]: its own properties in the
    order [Object.values] and [Object.entries] list them. *)
Abbreviation table := (list (string * BillingAccount.t)).

(** The own property [k] of the table. [accounts[k]] is
    [Js.read (get k accs) k]: it also finds what the table inherits. *)
Fixpoint get (k : string) (accs : table) : option BillingAccount.t :=
  match accs with
  | [] => None
  | (k', a) :: rest => if String.eqb k' k then Some a else get k rest
  end.

(** A write to an existing own property: it keeps its place. *)
Fixpoint set_existing (k : string) (a : BillingAccount.t) (accs : table) : table :=
  match accs with
  | [] => []
  | (k', a') :: rest =>
      if String.eqb k' k then (k', a) :: rest else (k', a') :: set_existing k a rest
  end.

(** A write that creates the property: an array index goes among the
    array indices, in ascending order and before every other key; any
    other key goes last. *)
Fixpoint insert_new (k : string) (a : BillingAccount.t) (accs : table) : table :=
  match accs with
  | [] => [(k, a)]
  | (k', a') :: rest =>
      if Js.precedes k k' then (k, a) :: (k', a') :: rest
      else (k', a') :: insert_new k a rest
  end.

(** [accounts[k] = a] *)
Definition put (k : string) (a : BillingAccount.t) (accs : table) : table :=
  match get k accs with
  | Some _ => set_existing k a accs
  | None => insert_new k a accs
  end.

(** The request attribution payload: only [origin] and [authorization]
    are read. *)
Record headers : Type := mkHeaders {
  origin : option string;
  authorization : option string
}.

(** The first argument of [charge]. *)
Inductive source : Type :=
| AccountId (i : string)
| RequestHeaders (h : headers).

(** What [matchAccountFromRequestHeaders] and [charge] hand back: a
    boolean or an account object. *)
Inductive result : Type :=
| Bool (b : bool)
| Account (a : BillingAccount.t).

(** Local variables of a [syncCharges] call suspended at its [await]:
    [data], [chargedBalances], and whether the awaited promise is
    fulfilled. *)
Record attempt : Type := mkAttempt {
  data : ledger;
  chargedBalances : list (string * JsValue);
  fulfilled : bool
}.

Record t : Type := mk {
  syncInterval : Z;
  pricing : gmap string Number;
  allowlist : gset string;
  accounts : option table;
  pendingCharges : ledger;
  wsChannel : WebSocketChannel.t;
  syncTimerHandler : option nat;
  syncInProgress : bool;
  (* environment of the object *)
  timers : gset nat;
  nextTimer : nat;
  suspended : option attempt
}.

(** The constructor; an interval below 5 seconds is refused. *)
Definition new (pricing : gmap string Number) (allowlist : list string)
    (syncInterval : Z) : completion t :=
  if syncInterval <? 5 then Throw
  else Return (mk syncInterval pricing (list_to_set allowlist) None ∅
                  WebSocketChannel.new None false ∅ O None).

Definition set_accounts (accs : option table) (s : t) : t :=
  mk (syncInterval s) (pricing s) (allowlist s) accs (pendingCharges s)
     (wsChannel s) (syncTimerHandler s) (syncInProgress s) (timers s)
     (nextTimer s) (suspended s).

Definition set_pendingCharges (l : ledger) (s : t) : t :=
  mk (syncInterval s) (pricing s) (allowlist s) (accounts s) l
     (wsChannel s) (syncTimerHandler s) (syncInProgress s) (timers s)
     (nextTimer s) (suspended s).

Definition set_wsChannel (c : WebSocketChannel.t) (s : t) : t :=
  mk (syncInterval s) (pricing s) (allowlist s) (accounts s) (pendingCharges s)
     c (syncTimerHandler s) (syncInProgress s) (timers s)
     (nextTimer s) (suspended s).

Definition set_sync (inProgress : bool) (a : option attempt) (s : t) : t :=
  mk (syncInterval s) (pricing s) (allowlist s) (accounts s) (pendingCharges s)
     (wsChannel s) (syncTimerHandler s) inProgress (timers s)
     (nextTimer s) a.

(** [scheduleSync()]: [setTimeout] arms a new timer and its handle, an
    object, is stored. *)
Definition scheduleSync (s : t) : t :=
  mk (syncInterval s) (pricing s) (allowlist s) (accounts s) (pendingCharges s)
     (wsChannel s) (Some (nextTimer s)) (syncInProgress s)
     ({[ nextTimer s ]} ∪ timers s) (S (nextTimer s)) (suspended s).

(** [connect()] *)
Definition connect (s : t) : t :=
  if decide (WebSocketChannel.status (wsChannel s) = WebSocketChannel.connected)
  then s
  else scheduleSync (set_wsChannel (WebSocketChannel.connect (wsChannel s)) s).

(** [terminate()] *)
Definition terminate (s : t) : t :=
  mk (syncInterval s) (pricing s) (allowlist s) (accounts s) (pendingCharges s)
     (WebSocketChannel.close (wsChannel s)) None (syncInProgress s)
     (match syncTimerHandler s with
      | Some h => timers s ∖ {[ h ]}
      | None => timers s
      end)
     (nextTimer s) (suspended s).

(** [getAccount(id)] *)
Definition getAccount (s : t) (i : string) : completion (Js.slot BillingAccount.t) :=
  match accounts s with
  | None => Throw
  | Some accs => Return (Js.read (get i accs) i)
  end.

(** The predicate of the first [find]: some origin of the account is the
    normalised request origin or a wildcard that it ends with. *)
Definition origin_matches (o : string) (a : BillingAccount.t) : bool :=
  match BillingAccount.origins a with
  | None => false
  | Some aos =>
      existsb (fun ao => String.eqb ao o
                         || Js.startsWith ao "*." && Js.endsWith o (Js.substring 1 ao))
              aos
  end.

(** The predicate of the second [find]: [a.apiKeys?.includes(apiKey)]. *)
Definition has_key (apiKey : option string) (a : BillingAccount.t) : bool :=
  match BillingAccount.apiKeys a, apiKey with
  | Some ks, Some k => existsb (String.eqb k) ks
  | _, _ => false
  end.

(** A string or [undefined] used as a condition. *)
Definition truthy (v : option string) : option string :=
  match v with
  | Some EmptyString => None
  | _ => v
  end.

(** [matchAccountFromRequestHeaders(requestHeaders)] *)
Definition matchAccountFromRequestHeaders (s : t) (h : headers) : result :=
  if OriginMatcher.has (allowlist s) (truthy (origin h)) then Bool true
  else
    match accounts s with
    | None => Bool false
    | Some accs =>
        let by_origin :=
          match truthy (origin h) with
          | Some o =>
              List.find (origin_matches (Js.strip_scheme (Js.toLowerCase o)))
                        (List.map snd accs)
          | None => None
          end in
        match by_origin with
        | Some account => Account account
        | None =>
            match truthy (authorization h) with
            | Some auth =>
                let parts := Js.split_space auth in
                if String.eqb (List.nth O parts EmptyString) "Bearer"
                then match List.find (has_key (List.nth_error parts 1))
                                     (List.map snd accs) with
                     | Some account => Account account
                     | None => Bool false
                     end
                else Bool false
            | None => Bool false
            end
        end
    end.

(** [pricing[category]] *)
Definition price (s : t) (category : string) : JsValue :=
  match Js.read (pricing s !! category) category with
  | Js.Own n => Num n
  | Js.Inherited => Obj
  | Js.Absent => Undefined
  end.

(** The ledger update at the end of [charge]: a missing account object
    and a missing [[0, 0]] entry are created, then the counter and the
    credits of the entry are incremented. Where a lookup finds a member
    of [Object.prototype], that member is taken for the object to update:
    it is written, and the ledger holds no entry for the charge. *)
Definition record_charge (from category : string) (chargedCredits : JsValue)
    (l : ledger) : ledger :=
  match Js.read (l !! from) from with
  | Js.Inherited => l
  | found =>
      let accountCharges := match found with Js.Own m => m | _ => ∅ end in
      match Js.read (accountCharges !! category) category with
      | Js.Inherited => <[from := accountCharges]> l
      | entry =>
          let '(count, credits) :=
            match entry with Js.Own e => e | _ => (Num 0%float, Num 0%float) end in
          <[from := <[category := (js_incr count, js_add credits chargedCredits)]>
                      accountCharges]> l
      end
  end.

(** [charge(from, category)] once [from] is an account id. On an
    inherited member [account.tryCharge] is not a function and the call
    throws. *)
Definition charge_account (s : t) (from category : string) : t * completion result :=
  match accounts s with
  | None => (s, Throw)
  | Some accs =>
      match Js.read (get from accs) from with
      | Js.Absent => (s, Return (Bool false))
      | Js.Inherited => (s, Throw)
      | Js.Own account =>
          let chargedCredits := price s category in
          let '(account', ok) := BillingAccount.tryCharge account chargedCredits in
          if ok
          then (set_pendingCharges
                  (record_charge from category chargedCredits (pendingCharges s))
                  (set_accounts (Some (put from account' accs)) s),
                Return (Bool true))
          else (s, Return (Bool false))
      end
  end.

(** [charge(from, category)]: the service after the call and what the
    call returns or that it throws. For request headers, [matched.id] is
    undefined on a boolean and falsy on an account whose id is empty. *)
Definition charge (s : t) (from : source) (category : string) : t * completion result :=
  match from with
  | AccountId i => charge_account s i category
  | RequestHeaders h =>
      match matchAccountFromRequestHeaders s h with
      | Bool b => (s, Return (Bool b))
      | Account a =>
          if String.eqb (BillingAccount.id a) EmptyString
          then (s, Return (Account a))
          else charge_account s (BillingAccount.id a) category
      end
  end.

(** The first loop of [syncCharges]: every account's [chargedBalance] is
    stored under its id, then set to 0. *)
Definition snapshot_balances (accs : table) : list (string * JsValue) :=
  List.map (fun '(i, account) => (i, BillingAccount.chargedBalance account)) accs.

Definition reset_balances (accs : table) : table :=
  List.map (fun '(i, account) => (i, BillingAccount.set_chargedBalance (Num 0%float) account)) accs.

(** [newCharges[category] || [0, 0]]: an inherited member is truthy and
    has no elements 0 and 1. *)
Definition new_entry (newCharges : gmap string (JsValue * JsValue)) (category : string)
    : JsValue * JsValue :=
  match Js.read (newCharges !! category) category with
  | Js.Own nc => nc
  | Js.Inherited => (Undefined, Undefined)
  | Js.Absent => (Num 0%float, Num 0%float)
  end.

(** The inner loop of the failure handler: every unsent category is added,
    component by component, to what [newCharges] holds for it. *)
Definition merge_categories (unsentCharges newCharges : gmap string (JsValue * JsValue))
    : gmap string (JsValue * JsValue) :=
  map_fold (fun category '(count, credits) acc =>
              let '(nc0, nc1) := new_entry acc category in
              <[category := (js_add count nc0, js_add credits nc1)]> acc)
           newCharges unsentCharges.

(** The outer loop of the failure handler. [newCharges] is the object the
    current ledger holds for the account; when there is none it is a new
    object [{}] that is filled and then dropped, or an inherited member
    that is written: the ledger itself is not. *)
Definition merge_unsent (unsent pending : ledger) : ledger :=
  map_fold (fun unsentAccountId unsentCharges acc =>
              match Js.read (acc !! unsentAccountId) unsentAccountId with
              | Js.Own newCharges =>
                  <[unsentAccountId := merge_categories unsentCharges newCharges]> acc
              | _ => acc
              end)
           pending unsent.

(** The last loop of the failure handler: [acc.chargedBalance += charged]
    for every snapshotted id still in the table; on an inherited member
    the sum is stored on that member, not in the table. *)
Definition restore_balances (charged : list (string * JsValue)) (accs : table) : table :=
  foldl (fun accs '(i, c) =>
           match Js.read (get i accs) i with
           | Js.Own acc =>
               put i (BillingAccount.set_chargedBalance
                        (js_add (BillingAccount.chargedBalance acc) c) acc) accs
           | _ => accs
           end)
        accs charged.

(** The end of [syncCharges]: [if (this.syncTimerHandler) this.scheduleSync()]. *)
Definition rearm (s : t) : t :=
  match syncTimerHandler s with
  | Some _ => scheduleSync s
  | None => s
  end.

(** [syncCharges()] up to its [await]. [send_ok] is the behaviour of the
    socket's [send], see [WebSocketChannel.notify]. *)
Definition syncCharges (send_ok : bool) (s : t) : t :=
  match syncTimerHandler s with
  | None => s
  | Some _ =>
      if bool_decide (WebSocketChannel.status (wsChannel s) ≠ WebSocketChannel.connected)
         || bool_decide (pendingCharges s = ∅)
         || negb (bool_decide (is_Some (accounts s)))
      then scheduleSync s
      else if syncInProgress s then rearm s
      else
        let data := pendingCharges s in
        let accs := default [] (accounts s) in
        let '(channel, ok) := WebSocketChannel.notify send_ok data (wsChannel s) in
        set_sync true (Some (mkAttempt data (snapshot_balances accs) ok))
          (set_wsChannel channel
             (set_accounts (Some (reset_balances accs))
                (set_pendingCharges ∅ s)))
  end.

(** [syncCharges()] from its [await] on: nothing more to do when the
    promise is fulfilled, the failure handler when it is rejected, then
    the flag is lowered and the timer armed again. *)
Definition syncCharges_resume (s : t) : t :=
  match suspended s with
  | None => s
  | Some a =>
      if fulfilled a then rearm (set_sync false None s)
      else
        let s1 := set_pendingCharges (merge_unsent (data a) (pendingCharges s)) s in
        match accounts s1, chargedBalances a with
        | Some accs, charged =>
            rearm (set_sync false None
                     (set_accounts (Some (restore_balances charged accs)) s1))
        | None, [] => rearm (set_sync false None s1)
        | None, _ :: _ => set_sync true None s1
        end
  end.

(** A sync timer goes off: its callback is [() => this.syncCharges()]. *)
Definition syncTimerFires (h : nat) (send_ok : bool) (s : t) : t :=
  if bool_decide (h ∈ timers s)
  then syncCharges send_ok
         (mk (syncInterval s) (pricing s) (allowlist s) (accounts s) (pendingCharges s)
             (wsChannel s) (syncTimerHandler s) (syncInProgress s)
             (timers s ∖ {[ h ]}) (nextTimer s) (suspended s))
  else s.

(** The loop of [onAccountsUpdate]. For an id that names a member of
    [Object.prototype] the lookup finds that member, no account is made,
    and [account.update] is not a function: the [TypeError] ends the loop
    with the records before it applied. *)
Fixpoint update_accounts (accountUpdates : list BillingAccount.props) (accs : table)
    : table :=
  match accountUpdates with
  | [] => accs
  | accountProps :: rest =>
      let accountId := BillingAccount.p_id accountProps in
      match Js.read (get accountId accs) accountId with
      | Js.Own account =>
          update_accounts rest
            (put accountId (BillingAccount.update account accountProps) accs)
      | Js.Absent =>
          let account := BillingAccount.assign (BillingAccount.new accountId) accountProps in
          update_accounts rest
            (put accountId (BillingAccount.update account accountProps) accs)
      | Js.Inherited => accs
      end
  end.

(** [onAccountsUpdate(accountUpdates)]: the service it leaves, also when
    it throws; the channel's [onMessage] catches and logs the error. *)
Definition onAccountsUpdate (accountUpdates : list BillingAccount.props) (s : t) : t :=
  set_accounts (Some (update_accounts accountUpdates (default [] (accounts s)))) s.

(** [onBalancesUpdated(balanceUpdates)]. Without an account table the
    first lookup throws; the channel's [onMessage] catches and logs it,
    the service is as before. On an inherited member the balance is
    stored on that member, not in the table. *)
Definition onBalancesUpdated (balanceUpdates : list (string * Number)) (s : t) : t :=
  match accounts s with
  | None => s
  | Some accs =>
      set_accounts
        (Some (foldl (fun accs '(i, b) =>
                        match Js.read (get i accs) i with
                        | Js.Own acc => put i (BillingAccount.set_balance b acc) accs
                        | _ => accs
                        end)
                     accs balanceUpdates))
        s
  end.

(** A message of the billing server, parsed. *)
Inductive message : Type :=
| accounts_update (d : list BillingAccount.props)
| balance_update (d : list (string * Number))
| unknown.

(** A text frame arrives: the channel turns ['connected'] and passes the
    message to [onMessage(message)]. *)
Definition onMessage (m : message) (s : t) : t :=
  let s1 := set_wsChannel (WebSocketChannel.onMessage (wsChannel s)) s in
  match m with
  | accounts_update d => onAccountsUpdate d s1
  | balance_update d => onBalancesUpdated d s1
  | unknown => s1
  end.

(** What happens to a service. *)
Inductive event : Type :=
| ECharge (from : source) (category : string)
| EConnect
| ETerminate
| EMessage (m : message)
| ESyncTimer (h : nat) (send_ok : bool)
| ESyncSettled
| EChannel (e : WebSocketChannel.event).

Definition step (s : t) (e : event) : t :=
  match e with
  | ECharge from category => fst (charge s from category)
  | EConnect => connect s
  | ETerminate => terminate s
  | EMessage m => onMessage m s
  | ESyncTimer h send_ok => syncTimerFires h send_ok s
  | ESyncSettled => syncCharges_resume s
  | EChannel e => set_wsChannel (WebSocketChannel.step (wsChannel s) e) s
  end.

Definition run (s : t) (es : list event) : t := foldl step s es.

(** The sum of two entries, [count] and [credits] apart:
    [[a[0] + b[0], a[1] + b[1]]]. *)
Definition pair_add (a b : JsValue * JsValue) : JsValue * JsValue :=
  (js_add (fst a) (fst b), js_add (snd a) (snd b)).

(** The sum of the entries of a ledger. *)
Definition account_total (m : gmap string (JsValue * JsValue)) : JsValue * JsValue :=
  map_fold (fun _ e acc => pair_add e acc) (Num 0%float, Num 0%float) m.

Definition ledger_total (l : ledger) : JsValue * JsValue :=
  map_fold (fun _ m acc => pair_add (account_total m) acc) (Num 0%float, Num 0%float) l.

End BillingService.

(** ** The matcher as the design document words it *)

Module Spec.

(** [s.split('.')] *)
Fixpoint labels (s : string) : list string :=
  match s with
  | EmptyString => [EmptyString]
  | String c s' =>
      if Ascii.eqb c "."%char then EmptyString :: labels s'
      else match labels s' with
           | w :: ws => String c w :: ws
           | [] => [String c EmptyString]
           end
  end.

(** The last two dot-separated labels of an origin, joined by a dot;
    [None] when the origin has a single label. *)
Definition last_two_labels (s : string) : option string :=
  match rev (labels s) with
  | l2 :: l1 :: _ => Some (l1 ++ "." ++ l2)
  | _ => None
  end.

(** "true iff the literal origin is in the exact set, or the origin's last
    two dot-separated labels match a stored suffix" *)
Definition match_ (m : OriginMatcher.t) (origin : string) : bool :=
  bool_decide (origin ∈ OriginMatcher.list m)
  || match last_two_labels origin with
     | Some d => bool_decide (d ∈ OriginMatcher.wildcards m)
     | None => false
     end.

End Spec.

(** ** Statements about the ledger *)

(** A run of [charge] calls. *)
Definition charge_calls (calls : list (BillingService.source * string))
    : list BillingService.event :=
  List.map (fun c => BillingService.ECharge (fst c) (snd c)) calls.

(** Every entry [[count, credits]] of a category whose price is the whole
    number [p] holds a whole count [n] of at most [bound] and, where [n * p]
    is a safe integer, [credits = n * p]. *)
Definition priced (pricing : gmap string Number) (bound : Z) (l : ledger) : Prop :=
  forall (from category : string) (m : gmap string (JsValue * JsValue))
         (count credits : JsValue) (p : Z),
    l !! from = Some m ->
    m !! category = Some (count, credits) ->
    pricing !! category = Some (whole p) ->
    0 <= p <= max_safe ->
    exists n : Z, 1 <= n <= bound /\ count = Num (whole n)
                  /\ (n * p <= max_safe -> credits = Num (whole (n * p))).

(** The amount stored under an id in the [chargedBalances] of an attempt. *)
Fixpoint snapshot_of (i : string) (charged : list (string * JsValue)) : option JsValue :=
  match charged with
  | [] => None
  | (k, c) :: rest => if String.eqb k i then Some c else snapshot_of i rest
  end.

(** A service with one account of balance 100, a price of 5 for ["tx"],
    connected, its first sync timer armed. *)
Definition demo_service : BillingService.t :=
  BillingService.run
    (BillingService.mk 5 {[ "tx" := 5%float ]} ∅ None ∅ WebSocketChannel.new None false
       ∅ O None)
    [BillingService.EConnect;
     BillingService.EMessage
       (BillingService.accounts_update
          [BillingAccount.mkProps "acc" None None (Some 100%float) None])].

Definition charge_tx : BillingService.event :=
  BillingService.ECharge (BillingService.AccountId "acc") "tx".

(** ** Vocabulary of the further properties *)

(** Every character of the string is in [\w]. *)
Fixpoint all_word (s : string) : bool :=
  match s with
  | EmptyString => true
  | String c s' => Js.is_word c && all_word s'
  end.

(** The string is empty or its last character is not in [\w]. *)
Fixpoint ends_nonword (s : string) : bool :=
  match s with
  | EmptyString => true
  | String c EmptyString => negb (Js.is_word c)
  | String _ s' => ends_nonword s'
  end.

(** The string holds no dot. *)
Fixpoint no_dot (s : string) : bool :=
  match s with
  | EmptyString => true
  | String c s' => negb (Ascii.eqb c "."%char) && no_dot s'
  end.

(** The string holds no space. *)
Fixpoint no_space (s : string) : bool :=
  match s with
  | EmptyString => true
  | String c s' => negb (Ascii.eqb c " "%char) && no_space s'
  end.

(** The number of characters outside [\w]. *)
Fixpoint nonwords (s : string) : nat :=
  match s with
  | EmptyString => O
  | String c s' => ((if Js.is_word c then 0 else 1) + nonwords s')%nat
  end.

(** The status the [onStatusChange] handler has last been told, from the
    calls made so far; ['disconnected'] before the first call. *)
Definition reported_status (es : list WebSocketChannel.effect)
    : WebSocketChannel.WebSocketStatus :=
  foldl (fun st e => match e with
                     | WebSocketChannel.StatusChange newStatus _ => newStatus
                     | _ => st
                     end)
        WebSocketChannel.disconnected es.

(** A call of the handler that reports a change. *)
Definition real_change (e : WebSocketChannel.effect) : Prop :=
  match e with
  | WebSocketChannel.StatusChange newStatus prevStatus => newStatus <> prevStatus
  | _ => True
  end.

(** Events other than [connect()], a transport error and a reconnect
    timer. *)
Definition passive (e : WebSocketChannel.event) : bool :=
  match e with
  | WebSocketChannel.EClose | WebSocketChannel.EMessage
  | WebSocketChannel.ESockClose _ => true
  | _ => false
  end.

Definition is_message (e : WebSocketChannel.event) : bool :=
  match e with
  | WebSocketChannel.EMessage => true
  | _ => false
  end.

(** The handler has been told every change of status, and only changes. *)
Definition told (c : WebSocketChannel.t) : Prop :=
  reported_status (WebSocketChannel.effects c) = WebSocketChannel.status c
  /\ Forall real_change (WebSocketChannel.effects c).

(** Every account of the table holds whole numbers [b] and [c] as
    [balance] and [chargedBalance], with [0 <= c <= b <= max_safe]. *)
Definition solvent (accs : BillingService.table) : Prop :=
  forall i acc,
    BillingService.get i accs = Some acc ->
    exists b c : Z,
      BillingAccount.balance acc = whole b
      /\ BillingAccount.chargedBalance acc = Num (whole c)
      /\ 0 <= c <= b /\ b <= max_safe.

(** Every price of the table is a whole number from 0 to [max_safe]. *)
Definition prices_whole (pricing : gmap string Number) : Prop :=
  forall category n,
    pricing !! category = Some n -> exists p : Z, n = whole p /\ 0 <= p <= max_safe.

(** Events other than [connect()]. *)
Definition not_connect (e : BillingService.event) : bool :=
  match e with
  | BillingService.EConnect => false
  | _ => true
  end.

(** Every account sits under its own id, and no id twice. *)
Definition keyed (accs : BillingService.table) : Prop :=
  NoDup accs.*1 /\ Forall (fun ka => BillingAccount.id ka.2 = ka.1) accs.


(** No record of an accounts-update is named like a member of
    [Object.prototype]. *)
Definition plain_ids (d : list BillingAccount.props) : Prop :=
  Forall (fun p => Js.proto_member (BillingAccount.p_id p) = false) d.


(** No account of the table has the name of a member of
    [Object.prototype] for id. *)
Definition plain_accounts (accs : BillingService.table) : Prop :=
  Forall (fun ka => Js.proto_member (BillingAccount.id ka.2) = false) accs.

(** ** Services and accounts used as instances *)

(** A service as its constructor leaves it. *)
Definition fresh_service : BillingService.t :=
  BillingService.mk 5 {[ "tx" := 5%float ]} ∅ None ∅ WebSocketChannel.new None false ∅ O None.

Definition acc_props : BillingAccount.props :=
  BillingAccount.mkProps "acc" (Some ["k1"]) (Some ["*.shop.example"]) (Some 100%float) None.

(** The service after ten charges, its first sync timer armed. *)
Definition charged_service : BillingService.t :=
  BillingService.run demo_service (replicate 10 charge_tx).

Definition charged_table : BillingService.table :=
  [("acc", BillingAccount.mk "acc" None None 100%float (Num 50%float))].

(** A service whose one account holds the key ["k1"]. *)
Definition keyed_service : BillingService.t :=
  BillingService.onAccountsUpdate [acc_props] fresh_service.

Definition keyed_table : BillingService.table :=
  [("acc", BillingAccount.mk "acc" (Some ["k1"]) (Some ["*.shop.example"]) 100%float
             (Num 0%float))].

Definition bearer_k1 : BillingService.headers :=
  BillingService.mkHeaders None (Some ("Bearer " ++ "k1")).

(** * Properties *)

(** ** Numbers *)

Section Doubles.






Lemma shl_S (c : positive) (n : nat) : shl c (S n) = xO (shl c n).
Proof. reflexivity. Qed.

Lemma shl_inner (c : positive) (n : nat) : shl c (S n) = shl (xO c) n.
Proof. induction n as [| n IH]; [reflexivity |]. rewrite shl_S, IH. reflexivity. Qed.

Lemma shl_Z (c : positive) (n : nat) : Zpos (shl c n) = Zpos c * 2 ^ Z.of_nat n.
Proof.
  induction n as [| n IH]; [simpl; lia |].
  rewrite shl_S, Pos2Z.inj_xO, IH, Nat2Z.inj_succ, Z.pow_succ_r by lia. lia.
Qed.

Lemma shl_add (c : positive) (n m : nat) : shl (shl c n) m = shl c (n + m).
Proof.
  induction m as [| m IH]; [rewrite Nat.add_0_r; reflexivity |].
  rewrite Nat.add_succ_r, !shl_S, IH. reflexivity.
Qed.

Lemma digits_size (p : positive) : digits2_pos p = Pos.size p.
Proof. induction p as [p IH | p IH |]; simpl; rewrite ?IH; reflexivity. Qed.

Lemma size_shl (c : positive) (n : nat) :
  Zpos (Pos.size (shl c n)) = Zpos (Pos.size c) + Z.of_nat n.
Proof.
  induction n as [| n IH]; [simpl; lia |].
  rewrite shl_S. simpl Pos.size. rewrite Pos2Z.inj_succ, IH. lia.
Qed.

Lemma iter_xO (c p : positive) : Pos.iter xO c p = shl c (Pos.to_nat p).
Proof.
  rewrite Pos2Nat.inj_iter. reflexivity.
Qed.

Lemma iter_pos_nat {A} (f : A -> A) (p : positive) (x : A) :
  SpecFloat.iter_pos f p x = Nat.iter (Pos.to_nat p) f x.
Proof.
  revert x. induction p as [p IH | p IH |]; intros x; cbn [SpecFloat.iter_pos].
  - rewrite !IH, Pos2Nat.inj_xI. 
    replace (S (2 * Pos.to_nat p)) with (Pos.to_nat p + (Pos.to_nat p + 1))%nat by lia.
    rewrite !Nat.iter_add. simpl. reflexivity.
  - rewrite !IH, Pos2Nat.inj_xO.
    replace (2 * Pos.to_nat p)%nat with (Pos.to_nat p + Pos.to_nat p)%nat by lia.
    rewrite Nat.iter_add. reflexivity.
  - reflexivity.
Qed.

Lemma shr_exact (c : positive) (n : nat) :
  Nat.iter n shr_1 (Build_shr_record (Zpos (shl c n)) false false)
  = Build_shr_record (Zpos c) false false.
Proof.
  revert c. induction n as [| n IH]; intros c; [reflexivity |].
  rewrite Nat.iter_succ_r. rewrite shl_S. simpl shr_1. apply IH.
Qed.

Lemma fexp64 (L : Z) : 1 <= L -> fexp prec emax L = L - 53.
Proof. intros H. unfold fexp, SpecFloat.emin, prec, emax. lia. Qed.

Lemma shl_align_spec (M : positive) (e e' : Z) :
  shl_align M e e' = if e' <? e then (shl M (Z.to_nat (e - e')), e') else (M, e).
Proof.
  unfold shl_align. destruct (e' - e) as [| d | d] eqn:E.
  - destruct (Z.ltb_spec e' e); [lia | reflexivity].
  - destruct (Z.ltb_spec e' e); [lia | reflexivity].
  - destruct (Z.ltb_spec e' e); [| lia].
    rewrite iter_xO. do 2 f_equal. lia.
Qed.

Lemma size_pos (c : positive) : 1 <= Zpos (Pos.size c).
Proof. lia. Qed.

Lemma round_aux_exact (c : positive) (t : nat) (e : Z) :
  Zpos (Pos.size c) <= 53 ->
  e + Z.of_nat t = Zpos (Pos.size c) - 53 ->
  binary_round_aux prec emax false
    (Zpos (shl (shl c (Z.to_nat (53 - Zpos (Pos.size c)))) t)) e loc_Exact
  = canonP c.
Proof.
  intros HL He. pose proof (size_pos c) as HL1. unfold canonP.
  remember (Zpos (Pos.size c)) as L eqn:EL.
  assert (Hm53 : Zpos (Pos.size (shl c (Z.to_nat (53 - L)))) = 53).
  { rewrite size_shl. rewrite <- EL. lia. }
  remember (shl c (Z.to_nat (53 - L))) as m53 eqn:Em.
  unfold binary_round_aux.
  assert (H1 : shr_fexp prec emax (Zpos (shl m53 t)) e loc_Exact
               = (Build_shr_record (Zpos m53) false false, L - 53)).
  { unfold shr_fexp. cbn [Zdigits2 shr_record_of_loc].
    rewrite digits_size, size_shl, Hm53, fexp64 by lia.
    replace (53 + Z.of_nat t + e - 53 - e) with (Z.of_nat t) by lia.
    unfold shr. destruct t as [| t].
    - simpl Z.of_nat. cbv iota. f_equal. simpl in He. lia.
    - assert (Et : Z.of_nat (S t) = Zpos (Pos.of_succ_nat t)) by reflexivity.
      rewrite Et. cbv iota. rewrite iter_pos_nat, SuccNat2Pos.id_succ, shr_exact.
      f_equal. lia. }
  rewrite H1. cbn [shr_m loc_of_shr_record round_nearest_even].
  assert (H2 : shr_fexp prec emax (Zpos m53) (L - 53) loc_Exact
               = (Build_shr_record (Zpos m53) false false, L - 53)).
  { unfold shr_fexp. cbn [Zdigits2 shr_record_of_loc].
    rewrite digits_size, Hm53, fexp64 by lia.
    replace (53 + (L - 53) - 53 - (L - 53)) with 0 by lia. reflexivity. }
  rewrite H2. cbn [shr_m].
  destruct (Z.leb_spec (L - 53) (emax - prec)) as [_ | H]; [reflexivity |].
  unfold emax, prec in H. lia.
Qed.

Lemma binary_round_exact (c : positive) (s : nat) :
  Zpos (Pos.size c) <= 53 ->
  binary_round prec emax false (shl c s) (- Z.of_nat s) = canonP c.
Proof.
  intros HL. pose proof (size_pos c) as HL1. unfold binary_round.
  rewrite digits_size, size_shl.
  replace (Zpos (Pos.size c) + Z.of_nat s + - Z.of_nat s) with (Zpos (Pos.size c)) by lia.
  rewrite fexp64 by lia. rewrite shl_align_spec.
  destruct (Z.ltb_spec (Zpos (Pos.size c) - 53) (- Z.of_nat s)) as [Hlt | Hge].
  - rewrite shl_add.
    replace (s + Z.to_nat (- Z.of_nat s - (Zpos (Pos.size c) - 53)))%nat
      with (Z.to_nat (53 - Zpos (Pos.size c)) + 0)%nat by lia.
    rewrite <- shl_add. apply round_aux_exact; [exact HL | simpl; lia].
  - replace s with (Z.to_nat (53 - Zpos (Pos.size c))
                    + Z.to_nat (Zpos (Pos.size c) - 53 + Z.of_nat s))%nat at 1 by lia.
    rewrite <- shl_add. apply round_aux_exact; [exact HL | lia].
Qed.

Lemma size_safe (c : Z) : 0 < c <= max_safe -> Zpos (Pos.size (Z.to_pos c)) <= 53.
Proof.
  intros [H0 H1]. destruct c as [| p | p]; try lia. simpl.
  destruct (Z.le_gt_cases (Zpos (Pos.size p)) 53) as [H | H]; [exact H | exfalso].
  pose proof (Pos.size_le p) as Hs.
  assert (2 ^ 54 <= 2 ^ Zpos (Pos.size p)) by (apply Z.pow_le_mono_r; lia).
  assert (Zpos (2 ^ Pos.size p) = 2 ^ Zpos (Pos.size p)) as E by apply Pos2Z.inj_pow.
  assert (Zpos (2 ^ Pos.size p) <= Zpos p~0) by (apply Pos2Z.pos_le_pos; exact Hs).
  unfold max_safe in H1. lia.
Qed.

Lemma normalize_exact (c : Z) (D : nat) :
  0 <= c <= max_safe ->
  binary_normalize prec emax (c * 2 ^ Z.of_nat D) (- Z.of_nat D) false = canon c.
Proof.
  intros [H0 H1]. destruct c as [| p | p]; [reflexivity | | lia].
  rewrite <- shl_Z. simpl. apply binary_round_exact.
  apply (size_safe (Zpos p)). lia.
Qed.

Lemma whole_SF (c : Z) : 0 <= c <= max_safe -> Prim2SF (whole c) = canon c.
Proof.
  intros H. unfold whole. rewrite of_uint63_spec, Uint63.of_Z_spec.
  assert (Hw : Uint63.wB = 2 ^ 63) by reflexivity.
  rewrite Z.mod_small by (rewrite Hw; unfold max_safe in H; lia).
  replace c with (c * 2 ^ Z.of_nat 0) at 1 by (simpl; lia).
  apply (normalize_exact c 0 H).
Qed.

Lemma canonP_mantissa (p : positive) (D : nat) :
  Zpos (Pos.size p) <= 53 -> (Z.to_nat (53 - Zpos (Pos.size p)) <= D)%nat ->
  Zpos (fst (shl_align (shl p (Z.to_nat (53 - Zpos (Pos.size p))))
               (Zpos (Pos.size p) - 53) (- Z.of_nat D)))
  = Zpos p * 2 ^ Z.of_nat D.
Proof.
  intros HL HD. rewrite shl_align_spec.
  destruct (Z.ltb_spec (- Z.of_nat D) (Zpos (Pos.size p) - 53)) as [H | H]; cbn [fst].
  - rewrite shl_add, shl_Z. do 2 f_equal. lia.
  - rewrite shl_Z. do 2 f_equal. lia.
Qed.

Lemma min_exponent (p q : positive) :
  Zpos (Pos.size p) <= 53 -> Zpos (Pos.size q) <= 53 ->
  exists D : nat,
    Z.min (Zpos (Pos.size p) - 53) (Zpos (Pos.size q) - 53) = - Z.of_nat D
    /\ (Z.to_nat (53 - Zpos (Pos.size p)) <= D)%nat
    /\ (Z.to_nat (53 - Zpos (Pos.size q)) <= D)%nat.
Proof.
  intros Hp Hq.
  exists (Z.to_nat (- Z.min (Zpos (Pos.size p) - 53) (Zpos (Pos.size q) - 53))). lia.
Qed.

Lemma whole_add (a b : Z) :
  0 <= a -> 0 <= b -> a + b <= max_safe ->
  (whole a + whole b)%float = whole (a + b).
Proof.
  intros Ha Hb Hab. apply Prim2SF_inj.
  rewrite FloatAxioms.add_spec, !whole_SF by lia. unfold SF64add.
  destruct a as [| p | p]; [| | lia].
  - rewrite Z.add_0_l. destruct b as [| q | q]; [reflexivity | reflexivity | lia].
  - destruct b as [| q | q]; [| | lia].
    + rewrite Z.add_0_r. reflexivity.
    + cbn [canon]. unfold canonP at 1 2. cbn [SFadd cond_Zopp].
      assert (Hp : Zpos (Pos.size p) <= 53) by (apply (size_safe (Zpos p)); lia).
      assert (Hq : Zpos (Pos.size q) <= 53) by (apply (size_safe (Zpos q)); lia).
      destruct (min_exponent p q Hp Hq) as [D [-> [HDp HDq]]].
      rewrite !canonP_mantissa by assumption.
      rewrite <- Z.mul_add_distr_r.
      apply (normalize_exact (Zpos p + Zpos q) D). lia.
Qed.

Lemma whole_sub (a b : Z) :
  0 <= b -> b <= a -> a <= max_safe ->
  (whole a - whole b)%float = whole (a - b).
Proof.
  intros Hb Hba Ha. apply Prim2SF_inj.
  rewrite FloatAxioms.sub_spec, !whole_SF by lia. unfold SF64sub.
  destruct b as [| q | q]; [| | lia].
  - rewrite Z.sub_0_r. destruct a as [| p | p]; reflexivity.
  - destruct a as [| p | p]; [lia | | lia].
    cbn [canon]. unfold canonP at 1 2. cbn [SFsub cond_Zopp].
    assert (Hp : Zpos (Pos.size p) <= 53) by (apply (size_safe (Zpos p)); lia).
    assert (Hq : Zpos (Pos.size q) <= 53) by (apply (size_safe (Zpos q)); lia).
    destruct (min_exponent p q Hp Hq) as [D [-> [HDp HDq]]].
    rewrite !canonP_mantissa by assumption.
    rewrite <- Z.mul_sub_distr_r.
    apply (normalize_exact (Zpos p - Zpos q) D). lia.
Qed.

Lemma size_lt (p q : positive) : Zpos (Pos.size p) < Zpos (Pos.size q) -> Zpos p < Zpos q.
Proof.
  intros H.
  pose proof (Pos.size_gt p) as Hp. pose proof (Pos.size_le q) as Hq.
  apply Pos2Z.pos_lt_pos in Hp. apply Pos2Z.pos_le_pos in Hq.
  rewrite Pos2Z.inj_pow in Hp, Hq.
  assert (2 ^ Zpos (Pos.size p) * 2 <= 2 ^ Zpos (Pos.size q)).
  { replace (2 ^ Zpos (Pos.size p) * 2) with (2 ^ (Zpos (Pos.size p) + 1))
      by (rewrite Z.pow_add_r by lia; lia).
    apply Z.pow_le_mono_r; lia. }
  lia.
Qed.

Lemma whole_ltb (a b : Z) :
  0 <= a <= max_safe -> 0 <= b <= max_safe ->
  (whole a <? whole b)%float = (a <? b).
Proof.
  intros Ha Hb. rewrite FloatAxioms.ltb_spec, !whole_SF by lia. unfold SFltb.
  destruct a as [| p | p]; [| | lia]; destruct b as [| q | q]; try lia; try reflexivity.
  cbn [canon]. unfold canonP. cbn [SFcompare].
  assert (Hp : Zpos (Pos.size p) <= 53) by (apply (size_safe (Zpos p)); lia).
  assert (Hq : Zpos (Pos.size q) <= 53) by (apply (size_safe (Zpos q)); lia).
  destruct (Z.compare_spec (Zpos (Pos.size p) - 53) (Zpos (Pos.size q) - 53)) as [E | E | E].
  - assert (Es : Zpos (Pos.size p) = Zpos (Pos.size q)) by lia. rewrite Es.
    change (Pos.compare_cont Eq ?x ?y) with (Pos.compare x y).
    rewrite Pos2Z.inj_compare, !shl_Z.
    set (k := 2 ^ Z.of_nat (Z.to_nat (53 - Zpos (Pos.size q)))).
    assert (0 < k) by (apply Z.pow_pos_nonneg; lia).
    destruct (Z.compare_spec (Zpos p * k) (Zpos q * k)) as [C | C | C];
      destruct (Z.ltb_spec (Zpos p) (Zpos q)); try reflexivity; nia.
  - pose proof (size_lt p q ltac:(lia)).
    destruct (Z.ltb_spec (Zpos p) (Zpos q)); [reflexivity | lia].
  - pose proof (size_lt q p ltac:(lia)).
    destruct (Z.ltb_spec (Zpos p) (Zpos q)); [lia | reflexivity].
Qed.

End Doubles.

Lemma whole_inj (a b : Z) :
  0 <= a <= max_safe -> 0 <= b <= max_safe -> whole a = whole b -> a = b.
Proof.
  intros Ha Hb E.
  pose proof (whole_ltb a b Ha Hb) as H1. pose proof (whole_ltb b a Hb Ha) as H2.
  rewrite E in H1, H2.
  rewrite (whole_ltb b b Hb Hb) in H1. rewrite (whole_ltb b b Hb Hb) in H2.
  rewrite Z.ltb_irrefl in H1, H2.
  symmetry in H1, H2. apply Z.ltb_ge in H1, H2. lia.
Qed.



(** ** Account *)

Section Account.
Import BillingAccount.

Lemma tryCharge_refused (a : t) (amount : JsValue) :
  (currentBalance a <? ToNumber amount)%float = true ->
  tryCharge a amount = (a, false).
Proof. unfold tryCharge. intros ->. reflexivity. Qed.

Lemma tryCharge_accepted (a : t) (amount : JsValue) :
  (currentBalance a <? ToNumber amount)%float = false ->
  tryCharge a amount
  = (set_chargedBalance (js_add (chargedBalance a) amount) a, true).
Proof. unfold tryCharge. intros ->. reflexivity. Qed.

Lemma tryCharge_balance (a : t) (amount : JsValue) :
  balance (fst (tryCharge a amount)) = balance a.
Proof. unfold tryCharge. destruct (_ <? _)%float; reflexivity. Qed.

Lemma tryCharge_id (a : t) (amount : JsValue) :
  id (fst (tryCharge a amount)) = id a.
Proof. unfold tryCharge. destruct (_ <? _)%float; reflexivity. Qed.

(** On whole numbers within the safe range the difference, the comparison
    and the sum of [tryCharge] are exact. *)
Lemma currentBalance_whole (a : t) (b c : Z) :
  balance a = whole b -> chargedBalance a = Num (whole c) ->
  0 <= c <= b -> b <= max_safe ->
  currentBalance a = whole (b - c).
Proof.
  intros Hb Hc Hr Hm. unfold currentBalance. rewrite Hb, Hc. simpl.
  apply whole_sub; lia.
Qed.

Lemma tryCharge_whole (a : t) (b c x : Z) :
  balance a = whole b -> chargedBalance a = Num (whole c) ->
  0 <= c <= b -> b <= max_safe -> 0 <= x <= max_safe ->
  tryCharge a (Num (whole x))
  = if b - c <? x then (a, false)
    else (set_chargedBalance (Num (whole (c + x))) a, true).
Proof.
  intros Hb Hc Hr Hm Hx. unfold tryCharge.
  rewrite (currentBalance_whole a b c Hb Hc Hr Hm). cbn [ToNumber].
  rewrite whole_ltb by lia.
  destruct (Z.ltb_spec (b - c) x) as [Hlt | Hge]; [reflexivity |].
  rewrite Hc. cbn [js_add ToNumber]. rewrite whole_add by lia. reflexivity.
Qed.

(** [tryCharge] keeps [0 <= chargedBalance <= balance] on whole numbers. *)
Lemma tryCharge_within (a : t) (b c x : Z) :
  balance a = whole b -> chargedBalance a = Num (whole c) ->
  0 <= c <= b -> b <= max_safe -> 0 <= x <= max_safe ->
  exists c', chargedBalance (fst (tryCharge a (Num (whole x)))) = Num (whole c')
             /\ 0 <= c' <= b.
Proof.
  intros Hb Hc Hr Hm Hx. rewrite (tryCharge_whole a b c x Hb Hc Hr Hm Hx).
  destruct (Z.ltb_spec (b - c) x) as [Hlt | Hge]; simpl.
  - exists c. split; [assumption | lia].
  - exists (c + x). split; [reflexivity | lia].
Qed.

Lemma charges_within (amounts : list Z) :
  forall (a : t) (b c : Z),
    balance a = whole b -> chargedBalance a = Num (whole c) ->
    0 <= c <= b -> b <= max_safe ->
    Forall (fun x => 0 <= x <= max_safe) amounts ->
    Forall (fun a' => exists c', balance a' = whole b /\ chargedBalance a' = Num (whole c')
                                 /\ 0 <= c' <= b)
           (charges a (List.map (fun x => Num (whole x)) amounts)).
Proof.
  induction amounts as [| x rest IH]; intros a b c Hb Hc Hr Hm Hall; simpl.
  - constructor.
  - inversion Hall as [| ? ? Hx Hrest]; subst.
    destruct (tryCharge_within a b c x Hb Hc Hr Hm Hx) as [c' [Hc' Hr']].
    constructor.
    + exists c'. rewrite tryCharge_balance. auto.
    + apply (IH _ b c'); auto. rewrite tryCharge_balance. assumption.
Qed.


End Account.

(** C2 (counterexample). The sum that [tryCharge] stores is rounded: on an
    account with balance 2^54 of which 2^53 is charged, a charge of 1 is
    accepted and leaves [chargedBalance] at 2^53. *)
Lemma C2_unit_charge_is_lost :
  let a := BillingAccount.mk "acc" None None (whole (2 ^ 54)) (Num (whole (2 ^ 53))) in
  let r := BillingAccount.tryCharge a (Num (whole 1)) in
  (BillingAccount.currentBalance a <? whole 1)%float = false
  /\ snd r = true
  /\ BillingAccount.chargedBalance (fst r) = BillingAccount.chargedBalance a
  /\ (ToNumber (BillingAccount.chargedBalance (fst r))
      - ToNumber (BillingAccount.chargedBalance a))%float = whole 0.
Proof. vm_compute. repeat split; reflexivity. Qed.

(** C2. [tryCharge] returns false and leaves the account as it is when
    [balance - chargedBalance], as a double, is less than the amount;
    otherwise it returns true, keeps [balance] and stores
    [chargedBalance + amount], for a numeric [chargedBalance] the double
    nearest to the sum. On whole numbers [0 <= c <= b <= max_safe]
    and a whole amount [0 <= x <= max_safe] all of it is exact: the charge
    is refused when [b - c < x] and otherwise leaves [chargedBalance] at
    [c + x]; charging exactly [b - c] succeeds and leaves nothing
    available, charging more fails and changes nothing. *)
Theorem C2_tryCharge_gate (a : BillingAccount.t) (amount : Number) :
  let r := BillingAccount.tryCharge a (Num amount) in
  ((BillingAccount.currentBalance a <? amount)%float = true -> r = (a, false))
  /\ ((BillingAccount.currentBalance a <? amount)%float = false ->
      snd r = true
      /\ BillingAccount.chargedBalance (fst r)
         = js_add (BillingAccount.chargedBalance a) (Num amount)
      /\ (forall c, BillingAccount.chargedBalance a = Num c ->
                    BillingAccount.chargedBalance (fst r) = Num (c + amount)%float)
      /\ BillingAccount.balance (fst r) = BillingAccount.balance a)
  /\ (forall b c x : Z,
        BillingAccount.balance a = whole b ->
        BillingAccount.chargedBalance a = Num (whole c) ->
        amount = whole x ->
        0 <= c <= b -> b <= max_safe -> 0 <= x <= max_safe ->
        BillingAccount.currentBalance a = whole (b - c)
        /\ (b - c < x -> r = (a, false))
        /\ (x <= b - c ->
            snd r = true
            /\ BillingAccount.chargedBalance (fst r) = Num (whole (c + x))
            /\ BillingAccount.balance (fst r) = whole b
            /\ BillingAccount.currentBalance (fst r) = whole (b - c - x))
        /\ (x = b - c ->
            snd r = true
            /\ BillingAccount.chargedBalance (fst r) = Num (whole b)
            /\ BillingAccount.currentBalance (fst r) = whole 0)).
Proof.
  intros r. subst r. split; [| split].
  - apply (tryCharge_refused a (Num amount)).
  - intros H. rewrite (tryCharge_accepted a (Num amount) H). simpl.
    split; [reflexivity |]. split; [reflexivity |]. split; [| reflexivity].
    intros c ->. reflexivity.
  - intros b c x Hb Hc -> Hr Hm Hx.
    rewrite (tryCharge_whole a b c x Hb Hc Hr Hm Hx).
    split; [apply currentBalance_whole; assumption |].
    assert (G : x <= b - c ->
                snd (if b - c <? x then (a, false)
                     else (BillingAccount.set_chargedBalance (Num (whole (c + x))) a, true))
                = true
                /\ BillingAccount.chargedBalance
                     (fst (if b - c <? x then (a, false)
                           else (BillingAccount.set_chargedBalance (Num (whole (c + x))) a,
                                 true)))
                   = Num (whole (c + x))
                /\ BillingAccount.balance
                     (fst (if b - c <? x then (a, false)
                           else (BillingAccount.set_chargedBalance (Num (whole (c + x))) a,
                                 true)))
                   = whole b
                /\ BillingAccount.currentBalance
                     (fst (if b - c <? x then (a, false)
                           else (BillingAccount.set_chargedBalance (Num (whole (c + x))) a,
                                 true)))
                   = whole (b - c - x)).
    { intros Hle. destruct (Z.ltb_spec (b - c) x) as [Hlt | _]; [lia |]. simpl.
      split; [reflexivity |]. split; [reflexivity |]. split; [exact Hb |].
      replace (b - c - x) with (b - (c + x)) by lia.
      apply currentBalance_whole; simpl; auto; lia. }
    split; [| split].
    + intros Hlt. destruct (Z.ltb_spec (b - c) x) as [_ | Hge]; [reflexivity | lia].
    + exact G.
    + intros E. destruct (G ltac:(lia)) as [G1 [G2 [_ G4]]].
      split; [exact G1 |]. split.
      * rewrite G2. do 2 f_equal. lia.
      * rewrite G4. f_equal. lia.
Qed.

Lemma C2_tryCharge_gate_witness :
  let a := BillingAccount.mk "acc" None None (whole 100) (Num (whole 95)) in
  (snd (BillingAccount.tryCharge a (Num (whole 5))) = true
   /\ BillingAccount.chargedBalance (fst (BillingAccount.tryCharge a (Num (whole 5))))
      = Num (whole 100)
   /\ BillingAccount.currentBalance (fst (BillingAccount.tryCharge a (Num (whole 5))))
      = whole 0)
  /\ BillingAccount.tryCharge a (Num (whole 6)) = (a, false).
Proof.
  intros a. split.
  - apply (proj2 (proj2 (C2_tryCharge_gate a (whole 5))) 100 95 5 eq_refl eq_refl eq_refl);
      unfold max_safe; lia.
  - apply (proj2 (proj2 (C2_tryCharge_gate a (whole 6))) 100 95 6 eq_refl eq_refl eq_refl);
      unfold max_safe; lia.
Defined.

(** C3 (counterexample). With fractions the sums are rounded upwards past
    the balance: on a balance of 1.7 the charges 0.6 and 1.1 are both
    accepted and leave [chargedBalance] above [balance], the available
    balance below zero. *)
Lemma C3_fractions_overspend :
  let a := BillingAccount.mk "acc" None None 1.7%float (Num 0%float) in
  let a1 := fst (BillingAccount.tryCharge a (Num 0.6%float)) in
  let a2 := fst (BillingAccount.tryCharge a1 (Num 1.1%float)) in
  BillingAccount.charges a [Num 0.6%float; Num 1.1%float] = [a1; a2]
  /\ snd (BillingAccount.tryCharge a (Num 0.6%float)) = true
  /\ snd (BillingAccount.tryCharge a1 (Num 1.1%float)) = true
  /\ BillingAccount.chargedBalance a2 = Num 1.7000000000000002%float
  /\ (BillingAccount.balance a2 <? ToNumber (BillingAccount.chargedBalance a2))%float = true
  /\ (BillingAccount.currentBalance a2 <? 0)%float = true.
Proof. vm_compute. repeat split; reflexivity. Qed.

(** C3. On an account with a whole balance [0 <= b <= max_safe] and
    nothing charged yet, after each call of any finite sequence of
    [tryCharge] calls with whole amounts from 0 to [max_safe],
    [chargedBalance] is a whole number of at most [b], [balance] is not
    below it and the available balance [balance - chargedBalance] is not
    negative. *)
Theorem C3_never_overspent (a : BillingAccount.t) (b : Z) (amounts : list Z) :
  0 <= b <= max_safe ->
  BillingAccount.balance a = whole b ->
  BillingAccount.chargedBalance a = Num (whole 0) ->
  Forall (fun x => 0 <= x <= max_safe) amounts ->
  Forall (fun a' => exists c,
              0 <= c <= b
              /\ BillingAccount.balance a' = whole b
              /\ BillingAccount.chargedBalance a' = Num (whole c)
              /\ (BillingAccount.balance a'
                  <? ToNumber (BillingAccount.chargedBalance a'))%float = false
              /\ BillingAccount.currentBalance a' = whole (b - c)
              /\ (BillingAccount.currentBalance a' <? whole 0)%float = false)
         (BillingAccount.charges a (List.map (fun x => Num (whole x)) amounts)).
Proof.
  intros Hb Hbal Hc Hall.
  eapply Forall_impl; [apply (charges_within amounts a b 0); auto; lia |].
  intros a' [c [Hb' [Hc' Hr]]]. exists c.
  assert (Hcur : BillingAccount.currentBalance a' = whole (b - c))
    by (apply currentBalance_whole; auto; lia).
  split; [exact Hr |]. split; [exact Hb' |]. split; [exact Hc' |].
  split; [| split; [exact Hcur |]].
  - rewrite Hb', Hc'. simpl. rewrite whole_ltb by lia. apply Z.ltb_ge. lia.
  - rewrite Hcur, whole_ltb by (unfold max_safe in *; lia). apply Z.ltb_ge. lia.
Qed.

Lemma C3_never_overspent_witness :
  Forall (fun a' => exists c,
              0 <= c <= 10
              /\ BillingAccount.balance a' = whole 10
              /\ BillingAccount.chargedBalance a' = Num (whole c)
              /\ (BillingAccount.balance a'
                  <? ToNumber (BillingAccount.chargedBalance a'))%float = false
              /\ BillingAccount.currentBalance a' = whole (10 - c)
              /\ (BillingAccount.currentBalance a' <? whole 0)%float = false)
         (BillingAccount.charges (BillingAccount.mk "acc" None None (whole 10) (Num (whole 0)))
            (List.map (fun x => Num (whole x)) [4; 7; 6; 1])).
Proof.
  apply (C3_never_overspent (BillingAccount.mk "acc" None None (whole 10) (Num (whole 0)))
           10 [4; 7; 6; 1]).
  - unfold max_safe. lia.
  - reflexivity.
  - reflexivity.
  - repeat constructor; unfold max_safe; lia.
Defined.

(** ** Origin matcher *)

Lemma exec_domain_suffix (s d : string) :
  Js.exec_domain s = Some d -> Js.domain_here d = true /\ exists pre, s = pre ++ d.
Proof.
  induction s as [| c s IH]; simpl.
  - discriminate.
  - destruct (Js.domain_here (String c s)) eqn:E.
    + intros [= <-]. split; [assumption | exists ""; reflexivity].
    + intros H. destruct (IH H) as [Hd [pre ->]].
      split; [assumption | exists (String c pre); reflexivity].
Qed.

(** The matcher of billing-account.js returns a boolean on every
    argument, and false on an empty or missing one. *)
Lemma match_guarded_total (m : OriginMatcher.t) (origin : option string) :
  exists b, OriginMatcher.match_guarded m origin = Return b.
Proof.
  unfold OriginMatcher.match_guarded.
  destruct origin as [[| c o] |]; eauto.
  destruct (OriginMatcher.has _ _); eauto.
  destruct (Js.exec_domain _); eauto.
  destruct (bool_decide _); eauto.
Qed.

Lemma match_guarded_falsy (m : OriginMatcher.t) :
  OriginMatcher.match_guarded m None = Return false
  /\ OriginMatcher.match_guarded m (Some "") = Return false.
Proof. split; reflexivity. Qed.

(** C4. With the allowlist [["*.example.com"]], [match] is true on
    ["api.example.com"] and on the root ["example.com"], and it is also
    true on ["evil-example.com"]: the expression [\w+\.\w+$] finds
    ["example.com"] behind the hyphen, which [\w] does not cover, although
    that origin is not in the exact set and its last two dot-separated
    labels, ["evil-example.com"], are not a stored suffix. *)
Theorem C4_hyphen_origin_accepted :
  let m := OriginMatcher.new ["*.example.com"] in
  OriginMatcher.match_ m (Some "api.example.com") = Return true
  /\ OriginMatcher.match_ m (Some "example.com") = Return true
  /\ OriginMatcher.match_ m (Some "evil-example.com") = Return true
  /\ OriginMatcher.match_guarded m (Some "evil-example.com") = Return true
  /\ Js.exec_domain "evil-example.com" = Some "example.com"
  /\ Spec.last_two_labels "evil-example.com" = Some "evil-example.com"
  /\ Spec.match_ m "evil-example.com" = false.
Proof. vm_compute. repeat split; reflexivity. Qed.

(** C5. [match] of origin-matcher.js is not total: with a missing origin
    it throws for every matcher, and for the allowlist [["*.example.com"]]
    it throws on the empty origin and on an origin without a dot. *)
Theorem C5_match_throws :
  (forall m, OriginMatcher.match_ m None = Throw)
  /\ OriginMatcher.match_ (OriginMatcher.new ["*.example.com"]) (Some "") = Throw
  /\ OriginMatcher.match_ (OriginMatcher.new ["*.example.com"]) (Some "localhost") = Throw.
Proof. split; [intros m; reflexivity | vm_compute; split; reflexivity]. Qed.

(** ** Connection channel *)

(** [close()] lowers the flag and leaves the reconnect timers armed; the
    callback of a timer does not read the flag. *)
Lemma close_keeps_reconnect_timers (c : WebSocketChannel.t) :
  WebSocketChannel.autoReconnect (WebSocketChannel.close c) = Some false
  /\ WebSocketChannel.reconnectTimers (WebSocketChannel.close c)
     = WebSocketChannel.reconnectTimers c
  /\ WebSocketChannel.opened (WebSocketChannel.close c) = WebSocketChannel.opened c.
Proof. unfold WebSocketChannel.close. simpl. destruct (WebSocketChannel.ws c); auto. Qed.

Lemma reconnect_timer_reopens (c : WebSocketChannel.t) (n : nat) :
  WebSocketChannel.reconnectTimers c = S n ->
  let c' := WebSocketChannel.reconnectTimerFires c in
  WebSocketChannel.opened c' = S (WebSocketChannel.opened c)
  /\ WebSocketChannel.ws c' = Some (WebSocketChannel.opened c)
  /\ WebSocketChannel.autoReconnect c' = Some true.
Proof. intros H. unfold WebSocketChannel.reconnectTimerFires. rewrite H. auto. Qed.

(** C6. A reconnect that is pending when [close()] is called still fires:
    after connect, a non-fatal close of the transport, and [close()], the
    flag is false and one timer is pending; when it goes off a second
    socket is opened and [autoReconnect] is true again. *)
Theorem C6_pending_reconnect_survives_close :
  let closed := WebSocketChannel.run WebSocketChannel.new
                  [WebSocketChannel.EConnect; WebSocketChannel.ESockClose 1006;
                   WebSocketChannel.EClose] in
  let after := WebSocketChannel.step closed WebSocketChannel.EReconnectTimer in
  WebSocketChannel.autoReconnect closed = Some false
  /\ WebSocketChannel.ws closed = None
  /\ WebSocketChannel.opened closed = 1%nat
  /\ WebSocketChannel.reconnectTimers closed = 1%nat
  /\ WebSocketChannel.ws after = Some 1%nat
  /\ WebSocketChannel.opened after = 2%nat
  /\ WebSocketChannel.autoReconnect after = Some true
  /\ last (WebSocketChannel.effects after) = Some (WebSocketChannel.Open 1).
Proof. vm_compute. repeat split; reflexivity. Qed.

(** ** Billing service: charging *)

Section Charge.
Import BillingService.

Lemma get_set_existing (k k' : string) (a : BillingAccount.t) (accs : table) :
  get k' (set_existing k a accs)
  = if String.eqb k k' then (fun _ => a) <$> get k accs else get k' accs.
Proof.
  induction accs as [| [k0 a0] rest IH]; simpl.
  - destruct (String.eqb k k'); reflexivity.
  - destruct (String.eqb_spec k0 k) as [-> | Hk]; simpl.
    + destruct (String.eqb_spec k k'); reflexivity.
    + rewrite IH. destruct (String.eqb_spec k0 k') as [-> | Hk'].
      * destruct (String.eqb_spec k k'); [congruence | reflexivity].
      * reflexivity.
Qed.

Lemma get_insert_new (k k' : string) (a : BillingAccount.t) (accs : table) :
  get k accs = None ->
  get k' (insert_new k a accs) = if String.eqb k k' then Some a else get k' accs.
Proof.
  induction accs as [| [k0 a0] rest IH]; simpl; intros Hn.
  - reflexivity.
  - destruct (String.eqb_spec k0 k) as [-> | Hk]; [discriminate |].
    destruct (Js.precedes k k0); simpl.
    + reflexivity.
    + rewrite (IH Hn). destruct (String.eqb_spec k0 k') as [-> | Hk'].
      * destruct (String.eqb_spec k k'); [congruence | reflexivity].
      * reflexivity.
Qed.

Lemma get_put (k k' : string) (a : BillingAccount.t) (accs : table) :
  get k' (put k a accs) = if String.eqb k k' then Some a else get k' accs.
Proof.
  unfold put. destruct (get k accs) as [a0 |] eqn:Hg.
  - rewrite get_set_existing, Hg. reflexivity.
  - apply get_insert_new, Hg.
Qed.

Lemma get_put_eq (k : string) (a : BillingAccount.t) (accs : table) :
  get k (put k a accs) = Some a.
Proof. rewrite get_put, String.eqb_refl. reflexivity. Qed.

Lemma get_put_ne (k k' : string) (a : BillingAccount.t) (accs : table) :
  k <> k' -> get k' (put k a accs) = get k' accs.
Proof.
  intros Hne. rewrite get_put. destruct (String.eqb_spec k k'); [contradiction | reflexivity].
Qed.

Lemma read_Some {A : Type} (a : A) (k : string) : Js.read (Some a) k = Js.Own a.
Proof. reflexivity. Qed.

Lemma read_plain {A : Type} (k : string) :
  Js.proto_member k = false -> Js.read (@None A) k = Js.Absent.
Proof. unfold Js.read. intros ->. reflexivity. Qed.

(** [matchAccountFromRequestHeaders] yields an account only from a loaded
    table, and one that the table holds. *)
Lemma matched_account_loaded (s : t) (h : headers) (a : BillingAccount.t) :
  matchAccountFromRequestHeaders s h = Account a -> accounts s <> None.
Proof.
  unfold matchAccountFromRequestHeaders.
  destruct (OriginMatcher.has _ _); [discriminate |].
  destruct (accounts s); [intros _; discriminate | discriminate].
Qed.

Lemma matched_account_held (s : t) (h : headers) (a : BillingAccount.t) :
  matchAccountFromRequestHeaders s h = Account a ->
  exists accs, accounts s = Some accs /\ In a (List.map snd accs).
Proof.
  unfold matchAccountFromRequestHeaders.
  destruct (OriginMatcher.has _ _); [discriminate |].
  destruct (accounts s) as [accs |]; [| discriminate].
  intros H. exists accs. split; [reflexivity |].
  destruct (truthy (origin h)) as [o |].
  - destruct (List.find _ _) as [a1 |] eqn:F1.
    + injection H as <-. apply (List.find_some _ _ F1).
    + destruct (truthy (authorization h)) as [auth |]; [| discriminate].
      destruct (String.eqb _ _); [| discriminate].
      destruct (List.find (has_key _) _) as [a2 |] eqn:F2; [| discriminate].
      injection H as <-. apply (List.find_some _ _ F2).
  - destruct (truthy (authorization h)) as [auth |]; [| discriminate].
    destruct (String.eqb _ _); [| discriminate].
    destruct (List.find (has_key _) _) as [a2 |] eqn:F2; [| discriminate].
    injection H as <-. apply (List.find_some _ _ F2).
Qed.

(** With a loaded table [charge] returns a boolean for every id but the
    names that the table inherits and does not hold. *)
Lemma charge_account_loaded (s : t) (from category : string) :
  accounts s <> None -> Js.proto_member from = false ->
  exists b, snd (charge_account s from category) = Return (Bool b).
Proof.
  unfold charge_account, Js.read.
  destruct (accounts s) as [accs |]; [intros _ Hp | contradiction].
  destruct (get from accs) as [account |]; [| rewrite Hp; eauto].
  destruct (BillingAccount.tryCharge _ _) as [account' [|]]; eauto.
Qed.

Lemma charge_account_inherited (s : t) (accs : table) (from category : string) :
  accounts s = Some accs -> get from accs = None -> Js.proto_member from = true ->
  charge_account s from category = (s, Throw).
Proof.
  intros Ha Hg Hp. unfold charge_account, Js.read. rewrite Ha, Hg, Hp. reflexivity.
Qed.

(** With request headers [charge] does not throw, as long as no account
    is named like a member of [Object.prototype]. *)
Lemma charge_headers_returns (s : t) (h : headers) (category : string) :
  (forall accs, accounts s = Some accs -> plain_accounts accs) ->
  exists r, snd (charge s (RequestHeaders h) category) = Return r.
Proof.
  intros Hplain. simpl.
  destruct (matchAccountFromRequestHeaders s h) as [b | a] eqn:E; [eauto |].
  destruct (String.eqb _ _); [eauto |].
  destruct (matched_account_held s h a E) as [accs [Ha Hin]].
  destruct (charge_account_loaded s (BillingAccount.id a) category) as [b Hb]; eauto.
  - rewrite Ha. discriminate.
  - apply in_map_iff in Hin. destruct Hin as [[k a0] [<- Hin]].
    pose proof (Hplain accs Ha) as Hall. unfold plain_accounts in Hall.
    rewrite Forall_forall in Hall. apply (Hall (k, a0)). apply list_elem_of_In, Hin.
Qed.

(** With a loaded table and such an account id [charge] returns a boolean. *)
Lemma charge_id_returns (s : t) (i category : string) :
  accounts s <> None -> Js.proto_member i = false ->
  exists b, snd (charge s (AccountId i) category) = Return (Bool b).
Proof. apply charge_account_loaded. Qed.

(** The self-origin short-circuit: true, and the service is untouched. *)
Lemma charge_self_origin (s : t) (h : headers) (o category : string) :
  origin h = Some o -> o <> "" -> o ∈ allowlist s ->
  charge s (RequestHeaders h) category = (s, Return (Bool true)).
Proof.
  intros Ho Hne Hin. simpl. unfold matchAccountFromRequestHeaders.
  rewrite Ho. destruct o as [| c o]; [contradiction |]. simpl.
  rewrite bool_decide_eq_true_2 by assumption. reflexivity.
Qed.

(** An unknown account id is refused and nothing changes. *)
Lemma charge_unknown_account (s : t) (accs : table) (i category : string) :
  accounts s = Some accs -> get i accs = None -> Js.proto_member i = false ->
  charge s (AccountId i) category = (s, Return (Bool false)).
Proof.
  intros Ha Hg Hp. simpl. unfold charge_account, Js.read. rewrite Ha, Hg, Hp. reflexivity.
Qed.

(** An insufficient balance is refused and nothing changes. *)
Lemma charge_insufficient (s : t) (accs : table) (i category : string)
    (account : BillingAccount.t) :
  accounts s = Some accs -> get i accs = Some account ->
  (BillingAccount.currentBalance account <? ToNumber (price s category))%float = true ->
  charge s (AccountId i) category = (s, Return (Bool false)).
Proof.
  intros Ha Hg Hlt. simpl. unfold charge_account. rewrite Ha, Hg. simpl.
  rewrite (tryCharge_refused _ _ Hlt). reflexivity.
Qed.

Lemma charge_account_pricing (s : t) (from category : string) :
  pricing (fst (charge_account s from category)) = pricing s.
Proof.
  unfold charge_account. destruct (accounts s) as [accs |]; [| reflexivity].
  destruct (Js.read (get from accs) from) as [account | |]; [| reflexivity | reflexivity].
  destruct (BillingAccount.tryCharge _ _) as [account' [|]]; reflexivity.
Qed.

Lemma charge_pricing (s : t) (from : source) (category : string) :
  pricing (fst (charge s from category)) = pricing s.
Proof.
  destruct from as [i | h]; simpl; [apply charge_account_pricing |].
  destruct (matchAccountFromRequestHeaders s h); [reflexivity |].
  destruct (String.eqb _ _); [reflexivity | apply charge_account_pricing].
Qed.

Lemma priced_mono (pr : gmap string Number) (n m : Z) (l : ledger) :
  n <= m -> priced pr n l -> priced pr m l.
Proof.
  intros Hnm Hinv from category m0 count credits p Hl Hm Hp Hr.
  destruct (Hinv from category m0 count credits p Hl Hm Hp Hr) as [k [Hk H]].
  exists k. split; [lia | exact H].
Qed.

Lemma priced_empty (pr : gmap string Number) (n : Z) : priced pr n ∅.
Proof. intros from category m count credits p Hl. rewrite lookup_empty in Hl. discriminate. Qed.

Lemma record_charge_priced (pr : gmap string Number) (bound : Z) (from category : string)
    (l : ledger) :
  0 <= bound < max_safe ->
  priced pr bound l ->
  priced pr (bound + 1)
    (record_charge from category
       (match Js.read (pr !! category) category with
        | Js.Own n => Num n
        | Js.Inherited => Obj
        | Js.Absent => Undefined
        end) l).
Proof.
  intros Hbound Hinv.
  assert (Hweak : priced pr (bound + 1) l) by (apply (priced_mono pr bound); [lia | exact Hinv]).
  unfold record_charge.
  destruct (Js.read (l !! from) from) as [m0 | |] eqn:Hfrom; [| exact Hweak |].
  - (* the account has an object in the ledger *)
    assert (Hl0 : l !! from = Some m0).
    { unfold Js.read in Hfrom. destruct (l !! from); [congruence |].
      destruct (Js.proto_member from); discriminate. }
    destruct (Js.read (m0 !! category) category) as [[count0 credits0] | |] eqn:Hcat.
    + assert (Hm0 : m0 !! category = Some (count0, credits0)).
      { unfold Js.read in Hcat. destruct (m0 !! category); [congruence |].
        destruct (Js.proto_member category); discriminate. }
      intros from' category' m count credits p Hl Hm Hp Hr.
      destruct (decide (from = from')) as [<- | Hne].
      * rewrite lookup_insert_eq in Hl. injection Hl as <-.
        destruct (decide (category = category')) as [<- | Hcne].
        -- rewrite lookup_insert_eq in Hm. injection Hm as <- <-.
           rewrite Hp. cbn [Js.read].
           destruct (Hinv from category m0 count0 credits0 p Hl0 Hm0 Hp Hr)
             as [n [Hn [-> Hcred]]].
           exists (n + 1). split; [lia |]. split.
           ++ unfold js_incr. cbn [ToNumber]. f_equal.
              apply (whole_add n 1); lia.
           ++ intros Hnp. rewrite Hcred by nia. cbn [js_add ToNumber]. f_equal.
              rewrite whole_add by nia. f_equal. lia.
        -- rewrite lookup_insert_ne in Hm by assumption.
           apply (Hweak from category' m0 count credits p Hl0 Hm Hp Hr).
      * rewrite lookup_insert_ne in Hl by assumption.
        apply (Hweak from' category' m count credits p Hl Hm Hp Hr).
    + intros from' category' m count credits p Hl Hm Hp Hr.
      destruct (decide (from = from')) as [<- | Hne].
      * rewrite lookup_insert_eq in Hl. injection Hl as <-.
        apply (Hweak from category' m0 count credits p Hl0 Hm Hp Hr).
      * rewrite lookup_insert_ne in Hl by assumption.
        apply (Hweak from' category' m count credits p Hl Hm Hp Hr).
    + assert (Hm0 : m0 !! category = None).
      { unfold Js.read in Hcat. destruct (m0 !! category); [discriminate | reflexivity]. }
      intros from' category' m count credits p Hl Hm Hp Hr.
      destruct (decide (from = from')) as [<- | Hne].
      * rewrite lookup_insert_eq in Hl. injection Hl as <-.
        destruct (decide (category = category')) as [<- | Hcne].
        -- rewrite lookup_insert_eq in Hm. injection Hm as <- <-.
           rewrite Hp. cbn [Js.read].
           exists 1. split; [lia |]. split; [reflexivity |].
           intros Hnp. cbn [js_add ToNumber]. f_equal.
           rewrite Z.mul_1_l. apply (whole_add 0 p); lia.
        -- rewrite lookup_insert_ne in Hm by assumption.
           apply (Hweak from category' m0 count credits p Hl0 Hm Hp Hr).
      * rewrite lookup_insert_ne in Hl by assumption.
        apply (Hweak from' category' m count credits p Hl Hm Hp Hr).
  - (* the first charge of the account *)
    assert (Hl0 : l !! from = None).
    { unfold Js.read in Hfrom. destruct (l !! from); [discriminate | reflexivity]. }
    rewrite lookup_empty.
    destruct (Js.read None category) as [[count0 credits0] | |] eqn:Hcat.
    + unfold Js.read in Hcat. destruct (Js.proto_member category); discriminate.
    + intros from' category' m count credits p Hl Hm Hp Hr.
      destruct (decide (from = from')) as [<- | Hne].
      * rewrite lookup_insert_eq in Hl. injection Hl as <-.
        rewrite lookup_empty in Hm. discriminate.
      * rewrite lookup_insert_ne in Hl by assumption.
        apply (Hweak from' category' m count credits p Hl Hm Hp Hr).
    + intros from' category' m count credits p Hl Hm Hp Hr.
      destruct (decide (from = from')) as [<- | Hne].
      * rewrite lookup_insert_eq in Hl. injection Hl as <-.
        destruct (decide (category = category')) as [<- | Hcne].
        -- rewrite lookup_insert_eq in Hm. injection Hm as <- <-.
           rewrite Hp. cbn [Js.read].
           exists 1. split; [lia |]. split; [reflexivity |].
           intros Hnp. cbn [js_add ToNumber]. f_equal.
           rewrite Z.mul_1_l. apply (whole_add 0 p); lia.
        -- rewrite lookup_insert_ne, lookup_empty in Hm by assumption. discriminate.
      * rewrite lookup_insert_ne in Hl by assumption.
        apply (Hweak from' category' m count credits p Hl Hm Hp Hr).
Qed.

Lemma charge_account_priced (s : t) (bound : Z) (from category : string) :
  0 <= bound < max_safe ->
  priced (pricing s) bound (pendingCharges s) ->
  priced (pricing s) (bound + 1) (pendingCharges (fst (charge_account s from category))).
Proof.
  intros Hb Hinv.
  assert (Hweak : priced (pricing s) (bound + 1) (pendingCharges s))
    by (apply (priced_mono _ bound); [lia | exact Hinv]).
  unfold charge_account.
  destruct (accounts s) as [accs |]; [| assumption].
  destruct (Js.read (get from accs) from) as [account | |]; [| assumption | assumption].
  destruct (BillingAccount.tryCharge _ _) as [account' [|]]; [| assumption].
  simpl. unfold price. simpl. apply record_charge_priced; assumption.
Qed.

Lemma charge_priced (s : t) (bound : Z) (from : source) (category : string) :
  0 <= bound < max_safe ->
  priced (pricing s) bound (pendingCharges s) ->
  priced (pricing s) (bound + 1) (pendingCharges (fst (charge s from category))).
Proof.
  intros Hb Hinv.
  assert (Hweak : priced (pricing s) (bound + 1) (pendingCharges s))
    by (apply (priced_mono _ bound); [lia | exact Hinv]).
  destruct from as [i | h]; simpl; [apply charge_account_priced; assumption |].
  destruct (matchAccountFromRequestHeaders s h); [assumption |].
  destruct (String.eqb _ _); [assumption | apply charge_account_priced; assumption].
Qed.

Lemma run_charges_priced (calls : list (source * string)) :
  forall (s : t) (bound : Z),
    0 <= bound -> bound + Z.of_nat (length calls) <= max_safe ->
    priced (pricing s) bound (pendingCharges s) ->
    pricing (run s (charge_calls calls)) = pricing s
    /\ priced (pricing s) (bound + Z.of_nat (length calls))
         (pendingCharges (run s (charge_calls calls))).
Proof.
  induction calls as [| [from category] rest IH]; intros s bound Hb Hlen Hinv.
  - simpl. rewrite Z.add_0_r. split; [reflexivity | assumption].
  - cbn [length] in Hlen. rewrite Nat2Z.inj_succ in Hlen.
    destruct (IH (fst (charge s from category)) (bound + 1)) as [Hp Hl].
    + lia.
    + lia.
    + rewrite charge_pricing. apply charge_priced; [lia | exact Hinv].
    + rewrite charge_pricing in Hp, Hl. cbn [length]. rewrite Nat2Z.inj_succ.
      replace (bound + Z.succ (Z.of_nat (length rest)))
        with (bound + 1 + Z.of_nat (length rest)) by lia.
      split; assumption.
Qed.

End Charge.

(** C7. Called with an account id before any accounts-update has arrived,
    [charge] throws: the lookup [this.accounts[from]] is made on
    [undefined]. *)
Theorem C7_charge_throws_before_load (s : BillingService.t) (i category : string) :
  BillingService.accounts s = None ->
  BillingService.charge s (BillingService.AccountId i) category = (s, Throw).
Proof. intros H. simpl. unfold BillingService.charge_account. rewrite H. reflexivity. Qed.

Lemma C7_charge_throws_before_load_witness :
  exists s, BillingService.new {[ "tx" := 5%float ]} [] 5 = Return s
            /\ BillingService.charge s (BillingService.AccountId "acc") "tx" = (s, Throw).
Proof.
  eexists. split; [reflexivity |].
  apply (C7_charge_throws_before_load _ "acc" "tx"). reflexivity.
Defined.





(** C10 (counterexample). With a price of 0.1, ten successful charges
    leave the entry [[10, 0.9999999999999999]], while [10 * 0.1] is 1. *)
Lemma C10_tenth_of_a_credit :
  let accs := [("acc", BillingAccount.mk "acc" None None 100%float (Num 0%float))] in
  let s := BillingService.mk 5 {[ "tx" := 0.1%float ]} ∅ (Some accs) ∅
             WebSocketChannel.new None false ∅ O None in
  let s' := BillingService.run s
              (charge_calls (replicate 10 (BillingService.AccountId "acc", "tx"))) in
  BillingService.pendingCharges s'
  = {[ "acc" := {[ "tx" := (Num 10%float, Num 0.9999999999999999%float) ]} ]}
  /\ (10 * 0.1)%float = 1%float
  /\ (0.9999999999999999 <? 1)%float = true.
Proof. vm_compute. repeat split; reflexivity. Qed.

(** C10. Starting from an empty ledger, after a run of [charge] calls
    every ledger entry of a category whose price is a whole number [p] from
    0 to [max_safe] is [[n, n * p]] for a whole [n >= 1], as long as [n * p]
    is a safe integer; and a further successful [charge] keeps it so. *)
Theorem C10_credits_are_count_times_price (s : BillingService.t)
    (calls : list (BillingService.source * string)) :
  BillingService.pendingCharges s = ∅ ->
  Z.of_nat (length calls) < max_safe ->
  let s' := BillingService.run s (charge_calls calls) in
  priced (BillingService.pricing s) (Z.of_nat (length calls))
    (BillingService.pendingCharges s')
  /\ forall from category s'',
      BillingService.charge s' from category = (s'', Return (BillingService.Bool true)) ->
      priced (BillingService.pricing s) (Z.of_nat (length calls) + 1)
        (BillingService.pendingCharges s'').
Proof.
  intros Hempty Hlen s'.
  assert (Hinit : priced (BillingService.pricing s) 0 (BillingService.pendingCharges s))
    by (rewrite Hempty; apply priced_empty).
  destruct (run_charges_priced calls s 0 ltac:(lia) ltac:(lia) Hinit) as [Hp Hl].
  fold s' in Hp, Hl. rewrite Z.add_0_l in Hl.
  split; [assumption |].
  intros from category s'' Hc.
  replace s'' with (fst (BillingService.charge s' from category)) by (rewrite Hc; reflexivity).
  rewrite <- Hp. apply charge_priced; [lia |]. rewrite Hp. assumption.
Qed.

Lemma C10_credits_are_count_times_price_witness :
  let accs := [("acc", BillingAccount.mk "acc" None None 100%float (Num 0%float))] in
  let s := BillingService.mk 5 {[ "tx" := 5%float ]} ∅ (Some accs) ∅
             WebSocketChannel.new None false ∅ O None in
  let s' := BillingService.run s
              (charge_calls [(BillingService.AccountId "acc", "tx");
                             (BillingService.AccountId "acc", "tx")]) in
  BillingService.pendingCharges s' = {[ "acc" := {[ "tx" := (Num 2%float, Num 10%float) ]} ]}
  /\ priced (BillingService.pricing s) 2 (BillingService.pendingCharges s').
Proof.
  intros accs s. split; [vm_compute; reflexivity |].
  apply (C10_credits_are_count_times_price s
           [(BillingService.AccountId "acc", "tx"); (BillingService.AccountId "acc", "tx")]).
  - reflexivity.
  - unfold max_safe. simpl. lia.
Defined.

(** ** Billing service: the sync loop *)



(** ** Billing service: a failed sync *)

Section Merge.
Import BillingService.

Lemma new_entry_ext (m1 m2 : gmap string (JsValue * JsValue)) (category : string) :
  m1 !! category = m2 !! category -> new_entry m1 category = new_entry m2 category.
Proof. unfold new_entry. intros ->. reflexivity. Qed.

Lemma merge_categories_lookup (unsentCharges newCharges : gmap string (JsValue * JsValue))
    (category : string) :
  merge_categories unsentCharges newCharges !! category
  = match unsentCharges !! category with
    | Some e => Some (pair_add e (new_entry newCharges category))
    | None => newCharges !! category
    end.
Proof.
  revert category. unfold merge_categories.
  apply (map_fold_weak_ind
           (fun r m => forall category,
                r !! category
                = match m !! category with
                  | Some e => Some (pair_add e (new_entry newCharges category))
                  | None => newCharges !! category
                  end)).
  - intros category. rewrite lookup_empty. reflexivity.
  - intros i [count credits] m r Hi IH category.
    pose proof (IH i) as Hri. rewrite Hi in Hri.
    rewrite (new_entry_ext r newCharges i Hri).
    destruct (new_entry newCharges i) as [nc0 nc1] eqn:Hnc.
    destruct (decide (i = category)) as [<- | Hne].
    + rewrite !lookup_insert_eq. rewrite Hnc. reflexivity.
    + rewrite !lookup_insert_ne by assumption. apply IH.
Qed.

(** What the failure handler leaves in the ledger: an account that has an
    object in the current ledger gets the unsent categories added to it; an
    account that has none stays absent, whatever was unsent for it. *)
Lemma merge_unsent_lookup (unsent pending : ledger) (i : string) :
  merge_unsent unsent pending !! i
  = match pending !! i, unsent !! i with
    | Some newCharges, Some unsentCharges => Some (merge_categories unsentCharges newCharges)
    | o, _ => o
    end.
Proof.
  revert i. unfold merge_unsent.
  apply (map_fold_weak_ind
           (fun r m => forall i,
                r !! i
                = match pending !! i, m !! i with
                  | Some newCharges, Some unsentCharges =>
                      Some (merge_categories unsentCharges newCharges)
                  | o, _ => o
                  end)).
  - intros i. rewrite lookup_empty. destruct (pending !! i); reflexivity.
  - intros k x m r Hk IH i.
    pose proof (IH k) as Hrk. rewrite Hk in Hrk.
    assert (Hrk' : r !! k = pending !! k) by (rewrite Hrk; destruct (pending !! k); reflexivity).
    unfold Js.read. rewrite Hrk'.
    destruct (decide (k = i)) as [<- | Hne].
    + rewrite lookup_insert_eq.
      destruct (pending !! k) as [nc |] eqn:Hp.
      * rewrite lookup_insert_eq. reflexivity.
      * destruct (Js.proto_member k); rewrite Hrk'; reflexivity.
    + rewrite (lookup_insert_ne m) by assumption.
      destruct (pending !! k) as [nc |] eqn:Hp.
      * rewrite lookup_insert_ne by assumption. apply IH.
      * destruct (Js.proto_member k); apply IH.
Qed.

Lemma merge_unsent_dropped (unsent pending : ledger) (i : string) :
  pending !! i = None -> merge_unsent unsent pending !! i = None.
Proof. intros H. rewrite merge_unsent_lookup, H. reflexivity. Qed.




End Merge.

(** The failed sync of the design document's scenario: ten charges are
    snapshotted, five more arrive while the send is pending, the send is
    rejected. The entry is [[15, 75]] and [chargedBalance] is 75. *)
Example failed_sync_with_new_charges :
  let s1 := BillingService.run demo_service (replicate 10 charge_tx) in
  let s2 := BillingService.run s1
              ([BillingService.ESyncTimer O false] ++ replicate 5 charge_tx
               ++ [BillingService.ESyncSettled]) in
  BillingService.pendingCharges s2
  = {[ "acc" := {[ "tx" := (Num 15%float, Num 75%float) ]} ]}
  /\ BillingService.accounts s2
     = Some [("acc", BillingAccount.mk "acc" None None 100%float (Num 75%float))].
Proof. vm_compute. split; reflexivity. Qed.

(** C1. A failed sync with no charge in between loses the snapshot: ten
    charges of 5 credits are pending, the send is rejected, and the
    failure handler leaves the ledger empty, while [chargedBalance] is
    restored to 50. The unsent categories are merged into an object that
    the ledger does not hold. *)
Theorem C1_failed_sync_drops_unsent_charges :
  let s1 := BillingService.run demo_service (replicate 10 charge_tx) in
  let s2 := BillingService.run s1
              [BillingService.ESyncTimer O false; BillingService.ESyncSettled] in
  BillingService.pendingCharges s1
  = {[ "acc" := {[ "tx" := (Num 10%float, Num 50%float) ]} ]}
  /\ BillingService.ledger_total (BillingService.pendingCharges s1)
     = (Num 10%float, Num 50%float)
  /\ BillingService.pendingCharges s2 = ∅
  /\ BillingService.ledger_total (BillingService.pendingCharges s2)
     = (Num 0%float, Num 0%float)
  /\ BillingService.accounts s2
     = Some [("acc", BillingAccount.mk "acc" None None 100%float (Num 50%float))]
  /\ BillingService.syncInProgress s2 = false
  /\ BillingService.suspended s2 = None.
Proof. vm_compute. repeat split; reflexivity. Qed.

(** * Further properties *)

(** ** Strings *)

Lemma str_app_cons (c : ascii) (s t : string) : String c s ++ t = String c (s ++ t).
Proof. reflexivity. Qed.

Lemma str_app_nil_l (t : string) : "" ++ t = t.
Proof. reflexivity. Qed.

Lemma str_app_nil_r (s : string) : s ++ "" = s.
Proof. induction s as [| c s IH]; [reflexivity |]. rewrite str_app_cons, IH. reflexivity. Qed.

Lemma str_app_assoc (s t u : string) : (s ++ t) ++ u = s ++ (t ++ u).
Proof.
  induction s as [| c s IH]; [reflexivity |].
  rewrite !str_app_cons, IH. reflexivity.
Qed.

Lemma str_length_app (s t : string) :
  String.length (s ++ t) = (String.length s + String.length t)%nat.
Proof.
  induction s as [| c s IH]; [reflexivity |].
  rewrite str_app_cons. simpl. rewrite IH. reflexivity.
Qed.

Lemma nonwords_app (s t : string) : nonwords (s ++ t) = (nonwords s + nonwords t)%nat.
Proof.
  induction s as [| c s IH]; [reflexivity |].
  rewrite str_app_cons. simpl. rewrite IH. lia.
Qed.

Lemma nonwords_all_word (w : string) : all_word w = true -> nonwords w = O.
Proof.
  induction w as [| c w IH]; simpl; [reflexivity |].
  intros H. apply andb_true_iff in H as [Hc Hw]. rewrite Hc, (IH Hw). reflexivity.
Qed.

Lemma nonwords_ends_nonword (q : string) :
  q <> "" -> ends_nonword q = true -> (1 <= nonwords q)%nat.
Proof.
  induction q as [| c q IH]; [congruence |].
  intros _ H. destruct q as [| c' q'].
  - simpl in *. destruct (Js.is_word c); [discriminate | lia].
  - assert (1 <= nonwords (String c' q'))%nat by (apply IH; [discriminate | exact H]).
    change (nonwords (String c (String c' q')))
      with ((if Js.is_word c then 0 else 1) + nonwords (String c' q'))%nat. lia.
Qed.

Lemma ends_nonword_tail (c : ascii) (q : string) :
  ends_nonword (String c q) = true -> ends_nonword q = true.
Proof. destruct q; [reflexivity | intros H; exact H]. Qed.

(** ** The expression [\w+\.\w+$] *)

Lemma word_plus_elim (k : string -> bool) (s : string) :
  Js.word_plus k s = true ->
  exists w rest, s = w ++ rest /\ w <> "" /\ all_word w = true /\ k rest = true.
Proof.
  induction s as [| c s IH]; simpl; [discriminate |].
  destruct (Js.is_word c) eqn:Hc; [| discriminate].
  intros H. apply orb_true_iff in H as [H | H].
  - destruct (IH H) as [w [rest [-> [Hne [Hw Hk]]]]].
    exists (String c w), rest. rewrite str_app_cons. simpl. rewrite Hc, Hw.
    repeat split; [discriminate | exact Hk].
  - exists (String c ""), s. simpl. rewrite Hc.
    repeat split; [discriminate | exact H].
Qed.

Lemma word_plus_intro (k : string -> bool) (w rest : string) :
  w <> "" -> all_word w = true -> k rest = true -> Js.word_plus k (w ++ rest) = true.
Proof.
  induction w as [| c w IH]; [congruence |].
  intros _ Hw Hk. simpl in Hw. apply andb_true_iff in Hw as [Hc Hw].
  rewrite str_app_cons. simpl. rewrite Hc.
  destruct w as [| c' w'].
  - rewrite str_app_nil_l, Hk. apply orb_true_r.
  - rewrite IH; [reflexivity | discriminate | exact Hw | exact Hk].
Qed.

Lemma domain_here_shape (s : string) :
  Js.domain_here s = true <->
  exists w1 w2, s = w1 ++ "." ++ w2
                /\ w1 <> "" /\ all_word w1 = true /\ w2 <> "" /\ all_word w2 = true.
Proof.
  unfold Js.domain_here. split.
  - intros H. apply word_plus_elim in H as [w1 [rest [-> [Hne1 [Hw1 Hk]]]]].
    destruct rest as [| c rest]; [discriminate |].
    destruct (Ascii.eqb_spec c "."%char) as [-> | Hc].
    + apply word_plus_elim in Hk as [w2 [rest2 [-> [Hne2 [Hw2 Hk2]]]]].
      destruct rest2; [| discriminate].
      exists w1, w2. rewrite str_app_nil_r. auto.
    + exfalso. destruct c as [[] [] [] [] [] [] [] []]; try discriminate. apply Hc. reflexivity.
  - intros [w1 [w2 [-> [Hne1 [Hw1 [Hne2 Hw2]]]]]].
    apply word_plus_intro; [assumption | assumption |].
    change ("." ++ w2) with (String "."%char w2).
    rewrite <- (str_app_nil_r w2). apply word_plus_intro; auto.
Qed.

Lemma exec_domain_here (s : string) :
  Js.domain_here s = true -> Js.exec_domain s = Some s.
Proof.
  intros H. destruct s as [| c s]; [discriminate H |].
  simpl. simpl in H. rewrite H. reflexivity.
Qed.

Lemma domain_here_nonwords (s : string) : Js.domain_here s = true -> nonwords s = 1%nat.
Proof.
  intros H. apply domain_here_shape in H as [w1 [w2 [-> [_ [Hw1 [_ Hw2]]]]]].
  rewrite !nonwords_app, (nonwords_all_word _ Hw1), (nonwords_all_word _ Hw2).
  reflexivity.
Qed.

Lemma exec_domain_behind_nonword (pre w1 w2 : string) :
  ends_nonword pre = true ->
  w1 <> "" -> all_word w1 = true -> w2 <> "" -> all_word w2 = true ->
  Js.exec_domain (pre ++ w1 ++ "." ++ w2) = Some (w1 ++ "." ++ w2).
Proof.
  intros Hpre Hne1 Hw1 Hne2 Hw2.
  assert (Hd : Js.domain_here (w1 ++ "." ++ w2) = true).
  { apply domain_here_shape. exists w1, w2. auto. }
  induction pre as [| c pre IH].
  - rewrite str_app_nil_l. apply exec_domain_here, Hd.
  - rewrite str_app_cons. simpl.
    destruct (Js.domain_here (String c (pre ++ w1 ++ "." ++ w2))) eqn:E.
    + exfalso. apply domain_here_nonwords in E.
      rewrite <- str_app_cons, nonwords_app in E.
      pose proof (nonwords_ends_nonword (String c pre) ltac:(discriminate) Hpre).
      rewrite (domain_here_nonwords _ Hd) in E. lia.
    + apply IH. eapply ends_nonword_tail, Hpre.
Qed.

Lemma no_dot_app_dot (s t : string) : no_dot (s ++ "." ++ t) = false.
Proof.
  induction s as [| c s IH]; [reflexivity |].
  rewrite str_app_cons. simpl. rewrite IH. apply andb_false_r.
Qed.

Lemma exec_domain_no_dot (s : string) : no_dot s = true -> Js.exec_domain s = None.
Proof.
  induction s as [| c s IH]; [reflexivity |].
  intros H. simpl.
  destruct (Js.domain_here (String c s)) eqn:E.
  - apply domain_here_shape in E as [w1 [w2 [E _]]].
    rewrite E, no_dot_app_dot in H. discriminate.
  - apply IH. simpl in H. apply andb_true_iff in H as [_ H]. exact H.
Qed.

(** X1. [exec] returns the text behind the last character that keeps the
    expression from matching further to the left. *)
Theorem exec_domain_characterised (s d : string) :
  Js.exec_domain s = Some d <->
  exists pre w1 w2,
    s = pre ++ w1 ++ "." ++ w2 /\ d = w1 ++ "." ++ w2 /\ ends_nonword pre = true
    /\ w1 <> "" /\ all_word w1 = true /\ w2 <> "" /\ all_word w2 = true.
Proof.
  split.
  - revert d. induction s as [| c s IH]; intros d; [discriminate |].
    simpl. destruct (Js.domain_here (String c s)) eqn:E.
    + intros [= <-]. apply domain_here_shape in E as [w1 [w2 [E H]]].
      exists "", w1, w2. rewrite str_app_nil_l. auto.
    + intros H. destruct (IH d H) as [pre [w1 [w2 [-> [-> [Hpre [Hn1 [Hw1 [Hn2 Hw2]]]]]]]]].
      exists (String c pre), w1, w2. rewrite str_app_cons.
      repeat split; auto.
      destruct pre as [| c' pre']; [| exact Hpre].
      simpl. destruct (Js.is_word c) eqn:Hc; [| reflexivity].
      exfalso. rewrite str_app_nil_l in E.
      assert (Js.domain_here (String c w1 ++ "." ++ w2) = true) as Hd.
      { apply domain_here_shape. exists (String c w1), w2.
        split; [reflexivity |]. split; [discriminate |].
        split; [simpl; rewrite Hc, Hw1; reflexivity |]. split; assumption. }
      rewrite str_app_cons in Hd. congruence.
  - intros [pre [w1 [w2 [-> [-> [Hpre [Hn1 [Hw1 [Hn2 Hw2]]]]]]]]].
    apply exec_domain_behind_nonword; auto.
Qed.

(** ** The constructor of the matcher *)

Lemma prefix_nil (s : string) : String.prefix "" s = true.
Proof. destruct s; reflexivity. Qed.

Lemma wildcard_entry_parts (d : string) :
  Js.includes ("*." ++ d) "*." = true
  /\ Js.substring (default O (Js.indexOf ("*." ++ d) "*.") + 2) ("*." ++ d) = d
  /\ Js.replace ("*." ++ d) "*." "" = d.
Proof.
  change ("*." ++ d) with (String "*"%char (String "."%char d)).
  unfold Js.includes, Js.replace. simpl. rewrite prefix_nil. simpl. auto.
Qed.

Lemma add_origin_grows (m : OriginMatcher.t) (origin : string) :
  OriginMatcher.list m ⊆ OriginMatcher.list (OriginMatcher.add_origin m origin)
  /\ OriginMatcher.wildcards m ⊆ OriginMatcher.wildcards (OriginMatcher.add_origin m origin).
Proof.
  unfold OriginMatcher.add_origin. destruct (Js.includes origin "*."); simpl;
    split; first [reflexivity | apply union_subseteq_r].
Qed.

Lemma foldl_add_origin_grows (allowlist : list string) :
  forall m : OriginMatcher.t,
    OriginMatcher.list m ⊆ OriginMatcher.list (foldl OriginMatcher.add_origin m allowlist)
    /\ OriginMatcher.wildcards m
       ⊆ OriginMatcher.wildcards (foldl OriginMatcher.add_origin m allowlist).
Proof.
  induction allowlist as [| o rest IH]; intros m; simpl; [split; reflexivity |].
  destruct (IH (OriginMatcher.add_origin m o)) as [H1 H2].
  destruct (add_origin_grows m o) as [G1 G2].
  split; etrans; eauto.
Qed.

Lemma new_holds_plain_entry (allowlist : list string) (origin : string) :
  origin ∈ allowlist -> Js.includes origin "*." = false ->
  forall m, origin ∈ OriginMatcher.list (foldl OriginMatcher.add_origin m allowlist).
Proof.
  intros Hin Hplain. induction allowlist as [| o rest IH]; intros m.
  - inversion Hin.
  - simpl. apply elem_of_cons in Hin as [<- | Hin].
    + apply (proj1 (foldl_add_origin_grows rest _)).
      unfold OriginMatcher.add_origin. rewrite Hplain. simpl.
      apply elem_of_union_l, elem_of_singleton. reflexivity.
    + apply IH, Hin.
Qed.

Lemma new_holds_wildcard_entry (allowlist : list string) (d : string) :
  ("*." ++ d) ∈ allowlist ->
  forall m,
    d ∈ OriginMatcher.list (foldl OriginMatcher.add_origin m allowlist)
    /\ d ∈ OriginMatcher.wildcards (foldl OriginMatcher.add_origin m allowlist).
Proof.
  intros Hin. induction allowlist as [| o rest IH]; intros m.
  - inversion Hin.
  - simpl. apply elem_of_cons in Hin as [<- | Hin].
    + destruct (wildcard_entry_parts d) as [Hi [Hs Hr]].
      destruct (foldl_add_origin_grows rest (OriginMatcher.add_origin m ("*." ++ d)))
        as [G1 G2].
      split; [apply G1 | apply G2];
        unfold OriginMatcher.add_origin; rewrite Hi, Hs, Hr; simpl;
        apply elem_of_union_l, elem_of_singleton; reflexivity.
    + apply IH, Hin.
Qed.

Lemma app_dot_nonempty (pre w1 w2 : string) : pre ++ w1 ++ "." ++ w2 <> "".
Proof.
  intros H. apply (f_equal no_dot) in H. rewrite <- str_app_assoc in H.
  rewrite no_dot_app_dot in H. discriminate.
Qed.

(** X2. An allowlist entry without ["*."] is accepted as it is. *)
Theorem match_accepts_plain_entry (allowlist : list string) (origin : string) :
  origin ∈ allowlist -> Js.includes origin "*." = false ->
  OriginMatcher.match_ (OriginMatcher.new allowlist) (Some origin) = Return true
  /\ (origin <> "" ->
      OriginMatcher.match_guarded (OriginMatcher.new allowlist) (Some origin) = Return true).
Proof.
  intros Hin Hplain.
  pose proof (new_holds_plain_entry allowlist origin Hin Hplain (OriginMatcher.mk ∅ ∅)) as H.
  fold (OriginMatcher.new allowlist) in H.
  unfold OriginMatcher.match_, OriginMatcher.match_guarded. simpl.
  rewrite bool_decide_eq_true_2 by exact H. split; [reflexivity |].
  destruct origin; [congruence | reflexivity].
Qed.

(** X3. A wildcard entry ["*.w1.w2"] of two labels accepts the root ["w1.w2"]
    and every origin that ends with ["w1.w2"] behind a character outside
    [\w]: a dot, and just as well a hyphen. *)
Theorem match_accepts_behind_nonword (allowlist : list string) (pre w1 w2 : string) :
  ("*." ++ w1 ++ "." ++ w2) ∈ allowlist ->
  w1 <> "" -> all_word w1 = true -> w2 <> "" -> all_word w2 = true ->
  ends_nonword pre = true ->
  OriginMatcher.match_ (OriginMatcher.new allowlist) (Some (pre ++ w1 ++ "." ++ w2))
  = Return true
  /\ OriginMatcher.match_guarded (OriginMatcher.new allowlist)
       (Some (pre ++ w1 ++ "." ++ w2))
     = Return true.
Proof.
  intros Hin Hn1 Hw1 Hn2 Hw2 Hpre.
  destruct (new_holds_wildcard_entry allowlist _ Hin (OriginMatcher.mk ∅ ∅)) as [_ Hwild].
  fold (OriginMatcher.new allowlist) in Hwild.
  pose proof (exec_domain_behind_nonword pre w1 w2 Hpre Hn1 Hw1 Hn2 Hw2) as Hex.
  unfold OriginMatcher.match_, OriginMatcher.match_guarded. simpl.
  rewrite Hex, (bool_decide_eq_true_2 _ Hwild).
  split.
  - destruct (bool_decide _); reflexivity.
  - destruct (pre ++ w1 ++ "." ++ w2) eqn:E; [exfalso; eapply app_dot_nonempty, E |].
    destruct (bool_decide _); reflexivity.
Qed.

(** X4. An origin without a dot that is not an exact entry makes [match] of
    origin-matcher.js throw; the guarded copy answers false. *)
Theorem match_without_dot (m : OriginMatcher.t) (origin : string) :
  no_dot origin = true -> origin ∉ OriginMatcher.list m ->
  OriginMatcher.match_ m (Some origin) = Throw
  /\ OriginMatcher.match_guarded m (Some origin) = Return false.
Proof.
  intros Hnd Hnin. unfold OriginMatcher.match_, OriginMatcher.match_guarded. simpl.
  rewrite (bool_decide_eq_false_2 _ Hnin), (exec_domain_no_dot _ Hnd).
  split; [reflexivity | destruct origin; reflexivity].
Qed.

(** X5. On a non-empty origin the guarded copy returns what [match] of
    origin-matcher.js returns, and false where that one throws. *)
Theorem match_guarded_refines (m : OriginMatcher.t) (origin : string) :
  origin <> "" ->
  OriginMatcher.match_guarded m (Some origin)
  = Return (match OriginMatcher.match_ m (Some origin) with
            | Return b => b
            | Throw => false
            end).
Proof.
  intros Hne. unfold OriginMatcher.match_, OriginMatcher.match_guarded. simpl.
  destruct origin as [| c o]; [congruence |].
  destruct (bool_decide _); [reflexivity |].
  destruct (Js.exec_domain _); [| reflexivity].
  destruct (bool_decide _); reflexivity.
Qed.

(** ** Connection channel: status and reconnection *)

Section Channel.
Import WebSocketChannel.

Lemma changeStatus_status (st : WebSocketStatus) (c : t) : status (changeStatus st c) = st.
Proof. unfold changeStatus. destruct (decide _) as [E | E]; [exact E | reflexivity]. Qed.

Lemma changeStatus_frame (st : WebSocketStatus) (c : t) :
  autoReconnect (changeStatus st c) = autoReconnect c
  /\ ws (changeStatus st c) = ws c
  /\ opened (changeStatus st c) = opened c
  /\ reconnectTimers (changeStatus st c) = reconnectTimers c.
Proof. unfold changeStatus. destruct (decide _); simpl; auto. Qed.

Lemma step_keeps_disconnected (c : t) (e : event) :
  is_message e = false -> status c = disconnected -> status (step c e) = disconnected.
Proof.
  intros He Hc. destruct e; simpl in *; try discriminate.
  - exact Hc.
  - unfold close. simpl. destruct (ws c); exact Hc.
  - unfold onClose.
    match goal with |- context [changeStatus disconnected ?x] =>
      pose proof (changeStatus_status disconnected x) as Hs;
      destruct (autoReconnect (changeStatus disconnected x)) as [[|] |]
    end; simpl; exact Hs.
  - unfold onError, close. simpl.
    pose proof (changeStatus_status disconnected c) as Hs.
    destruct (ws (changeStatus disconnected c)); exact Hs.
  - unfold reconnectTimerFires. destruct (reconnectTimers c); exact Hc.
Qed.

Lemma reported_status_snoc (es : list effect) (e : effect) :
  reported_status (es ++ [e])
  = match e with StatusChange newStatus _ => newStatus | _ => reported_status es end.
Proof. unfold reported_status. rewrite foldl_app. reflexivity. Qed.

Lemma told_emit (e : effect) (c : t) :
  told c -> (forall n p, e <> StatusChange n p) -> told (emit e c).
Proof.
  intros [H1 H2] He. split; simpl.
  - rewrite reported_status_snoc. destruct e; try exact H1. exfalso. eapply He. reflexivity.
  - apply Forall_app. split; [exact H2 |]. constructor; [| constructor].
    destruct e; try exact I. exfalso. eapply He. reflexivity.
Qed.

Lemma told_changeStatus (st : WebSocketStatus) (c : t) : told c -> told (changeStatus st c).
Proof.
  intros [H1 H2]. unfold changeStatus. destruct (decide _) as [E | E]; [split; assumption |].
  split; simpl.
  - rewrite reported_status_snoc. reflexivity.
  - apply Forall_app. split; [exact H2 |]. constructor; [| constructor]. simpl. congruence.
Qed.

Lemma told_fields (c : t) (a : option bool) (w : option nat) (o r : nat) :
  told c -> told (mk a (status c) w o r (effects c)).
Proof. intros H. exact H. Qed.

Lemma told_connect (c : t) : told c -> told (connect c).
Proof.
  intros H. unfold connect. apply told_emit; [| discriminate].
  apply (told_fields c _ _ _ _ H).
Qed.

Lemma told_close (c : t) : told c -> told (close c).
Proof.
  intros H. unfold close. simpl. destruct (ws c).
  - apply told_emit; [| discriminate]. apply (told_fields c _ _ _ _ H).
  - apply (told_fields c _ _ _ _ H).
Qed.

Lemma told_setReconnectTimer (c : t) : told c -> told (setReconnectTimer c).
Proof.
  intros H. unfold setReconnectTimer. apply told_emit; [| discriminate].
  apply (told_fields c _ _ _ _ H).
Qed.

Lemma told_step (c : t) (e : event) : told c -> told (step c e).
Proof.
  intros H. destruct e; simpl.
  - apply told_connect, H.
  - apply told_close, H.
  - apply told_changeStatus, H.
  - unfold onClose.
    assert (H1 : told (match ws c with Some i => emit (SockTerminate i) c | None => c end)).
    { destruct (ws c); [apply told_emit; [exact H | discriminate] | exact H]. }
    set (c1 := match ws c with Some i => emit (SockTerminate i) c | None => c end) in *.
    set (c2 := mk (autoReconnect c1) (status c1) None (opened c1) (reconnectTimers c1)
                  (effects c1)).
    assert (H2 : told c2) by apply (told_fields c1 _ _ _ _ H1).
    set (c3 := if errorCode =? 1008 then _ else c2).
    assert (H3 : told c3).
    { subst c3. destruct (errorCode =? 1008); [| exact H2].
      apply (told_emit LogTokenRejected c2) in H2; [| discriminate]. exact H2. }
    pose proof (told_changeStatus disconnected c3 H3) as H4.
    destruct (autoReconnect (changeStatus disconnected c3)) as [[|] |]; try exact H4.
    apply told_setReconnectTimer, H4.
  - unfold onError. apply told_setReconnectTimer, told_close, told_changeStatus, H.
  - unfold reconnectTimerFires. destruct (reconnectTimers c); [exact H |].
    apply told_connect. apply (told_fields c _ _ _ _ H).
Qed.

Lemma step_passive (c : t) (e : event) :
  passive e = true -> autoReconnect c <> Some true ->
  autoReconnect (step c e) <> Some true
  /\ opened (step c e) = opened c
  /\ reconnectTimers (step c e) = reconnectTimers c.
Proof.
  intros He Hc. destruct c as [a st w o r ef]. simpl in Hc.
  destruct e; simpl in He; try discriminate.
  - destruct w; cbn; auto.
  - destruct st; cbn; auto.
  - destruct st, w, a as [[|] |]; try congruence;
      cbn; unfold onClose; cbn; destruct (errorCode =? 1008); cbn; auto.
Qed.

End Channel.

(** X6. Without an inbound message the channel is never ['connected'],
    whatever else happens to it: the open event of the transport does not
    count. *)
Theorem status_connected_needs_message (es : list WebSocketChannel.event) :
  Forall (fun e => is_message e = false) es ->
  WebSocketChannel.status (WebSocketChannel.run WebSocketChannel.new es)
  = WebSocketChannel.disconnected.
Proof.
  intros H. unfold WebSocketChannel.run.
  assert (G : forall c, WebSocketChannel.status c = WebSocketChannel.disconnected ->
                        WebSocketChannel.status (foldl WebSocketChannel.step c es)
                        = WebSocketChannel.disconnected).
  { induction H as [| e es He Hes IH]; intros c Hc; simpl; [exact Hc |].
    apply IH, step_keeps_disconnected; assumption. }
  apply G. reflexivity.
Qed.

(** X7. In every run the status-change handler is called only with a status
    that differs from the previous one, and the status it was last told is
    the status of the channel. *)
Theorem status_handler_in_step (es : list WebSocketChannel.event) :
  let c := WebSocketChannel.run WebSocketChannel.new es in
  reported_status (WebSocketChannel.effects c) = WebSocketChannel.status c
  /\ Forall real_change (WebSocketChannel.effects c).
Proof.
  unfold WebSocketChannel.run.
  assert (G : forall c, told c -> told (foldl WebSocketChannel.step c es)).
  { induction es as [| e es IH]; intros c Hc; simpl; [exact Hc |].
    apply IH, told_step, Hc. }
  apply (G WebSocketChannel.new). split; [reflexivity | constructor].
Qed.

(** X8. While [autoReconnect] is not true, [close()] calls, messages and close
    events of the transport open no socket and arm no reconnect timer, and
    the flag stays as it is: only [connect()], a transport error or a timer
    that is already armed bring the channel back. *)
Theorem closed_channel_stays_closed (c : WebSocketChannel.t)
    (es : list WebSocketChannel.event) :
  WebSocketChannel.autoReconnect c <> Some true ->
  Forall (fun e => passive e = true) es ->
  let c' := WebSocketChannel.run c es in
  WebSocketChannel.autoReconnect c' <> Some true
  /\ WebSocketChannel.opened c' = WebSocketChannel.opened c
  /\ WebSocketChannel.reconnectTimers c' = WebSocketChannel.reconnectTimers c.
Proof.
  intros Hc Hes. unfold WebSocketChannel.run. revert c Hc.
  induction Hes as [| e es He Hes IH]; intros c Hc; simpl; [auto |].
  destruct (step_passive c e He Hc) as [H1 [H2 H3]].
  destruct (IH _ H1) as [G1 [G2 G3]]. rewrite G2, G3. auto.
Qed.

(** X9. A transport error followed by the close event of the socket arms one
    reconnect timer, not two, whatever the flag was: [onError] lowers the
    flag before [onClose] reads it. When the timer goes off one socket is
    opened. *)
Theorem error_then_close_reconnects_once (c : WebSocketChannel.t) (errorCode : Z) :
  let c' := WebSocketChannel.onClose errorCode (WebSocketChannel.onError c) in
  WebSocketChannel.reconnectTimers c' = S (WebSocketChannel.reconnectTimers c)
  /\ WebSocketChannel.ws c' = None
  /\ WebSocketChannel.status c' = WebSocketChannel.disconnected
  /\ WebSocketChannel.opened c' = WebSocketChannel.opened c
  /\ WebSocketChannel.opened (WebSocketChannel.reconnectTimerFires c')
     = S (WebSocketChannel.opened c)
  /\ WebSocketChannel.reconnectTimers (WebSocketChannel.reconnectTimerFires c')
     = WebSocketChannel.reconnectTimers c.
Proof.
  destruct c as [a st w o r ef].
  destruct st, w as [i |];
    cbn; unfold WebSocketChannel.onClose, WebSocketChannel.onError; cbn;
    destruct (errorCode =? 1008); cbn; auto 10.
Qed.

(** ** Billing service: what a charge touches *)

Section ChargeFrame.
Import BillingService.

Lemma charge_account_frame (s : t) (from category : string) :
  let s' := fst (charge_account s from category) in
  syncTimerHandler s' = syncTimerHandler s /\ timers s' = timers s
  /\ nextTimer s' = nextTimer s /\ suspended s' = suspended s
  /\ syncInProgress s' = syncInProgress s /\ wsChannel s' = wsChannel s
  /\ allowlist s' = allowlist s.
Proof.
  unfold charge_account. destruct (accounts s) as [accs |]; [| simpl; auto 10].
  destruct (Js.read (get from accs) from) as [account | |]; [| simpl; auto 10 ..].
  destruct (BillingAccount.tryCharge _ _) as [account' [|]]; simpl; auto 10.
Qed.

Lemma charge_frame (s : t) (from : source) (category : string) :
  let s' := fst (charge s from category) in
  syncTimerHandler s' = syncTimerHandler s /\ timers s' = timers s
  /\ nextTimer s' = nextTimer s /\ suspended s' = suspended s
  /\ syncInProgress s' = syncInProgress s /\ wsChannel s' = wsChannel s
  /\ allowlist s' = allowlist s.
Proof.
  destruct from as [i | h]; simpl; [apply charge_account_frame |].
  destruct (matchAccountFromRequestHeaders s h); [auto 10 |].
  destruct (String.eqb _ _); [auto 10 | apply charge_account_frame].
Qed.


Lemma charge_account_solvent (s : t) (from category : string) (accs : table) (p : Z) :
  accounts s = Some accs -> solvent accs ->
  pricing s !! category = Some (whole p) -> 0 <= p <= max_safe ->
  exists accs', accounts (fst (charge_account s from category)) = Some accs'
                /\ solvent accs'.
Proof.
  intros Ha Hs Hp Hp0. unfold charge_account, price. rewrite Ha, Hp. cbn [Js.read].
  destruct (get from accs) as [account |] eqn:Hg;
    [| unfold Js.read; destruct (Js.proto_member from); exists accs; auto].
  cbn [Js.read].
  destruct (Hs from account Hg) as [b [c [Hb [Hc [Hr Hm]]]]].
  pose proof (tryCharge_within account b c p Hb Hc Hr Hm Hp0) as [c' [Hc' Hr']].
  pose proof (tryCharge_balance account (Num (whole p))) as Hbal.
  destruct (BillingAccount.tryCharge account (Num (whole p))) as [account' [|]];
    simpl in *; [| exists accs; auto].
  eexists. split; [reflexivity |].
  intros i acc Hi. destruct (String.eqb_spec from i) as [<- | Hne].
  - rewrite get_put_eq in Hi. injection Hi as <-.
    exists b, c'. rewrite Hbal. auto.
  - rewrite get_put_ne in Hi by assumption. eapply Hs, Hi.
Qed.

Lemma charge_solvent (s : t) (from : source) (category : string) (accs : table) (p : Z) :
  accounts s = Some accs -> solvent accs ->
  pricing s !! category = Some (whole p) -> 0 <= p <= max_safe ->
  exists accs', accounts (fst (charge s from category)) = Some accs' /\ solvent accs'.
Proof.
  intros Ha Hs Hp Hp0. destruct from as [i | h]; simpl.
  - eapply charge_account_solvent; eauto.
  - destruct (matchAccountFromRequestHeaders s h); [exists accs; auto |].
    destruct (String.eqb _ _); [exists accs; auto |].
    eapply charge_account_solvent; eauto.
Qed.

End ChargeFrame.


(** X12. With whole prices and whole balances in the safe range, and
    charges of priced categories only, no account of a solvent table is ever
    charged beyond its balance, however the charges are spread over accounts
    and categories: every [chargedBalance] stays a whole number from 0 to
    the balance. *)
Theorem charges_never_overspend (s : BillingService.t) (accs : BillingService.table)
    (calls : list (BillingService.source * string)) :
  BillingService.accounts s = Some accs ->
  solvent accs ->
  prices_whole (BillingService.pricing s) ->
  Forall (fun call => is_Some (BillingService.pricing s !! call.2)) calls ->
  exists accs',
    BillingService.accounts (BillingService.run s (charge_calls calls)) = Some accs'
    /\ solvent accs'
    /\ forall i acc,
        BillingService.get i accs' = Some acc ->
        (BillingAccount.balance acc <? ToNumber (BillingAccount.chargedBalance acc))%float
        = false
        /\ (BillingAccount.currentBalance acc <? whole 0)%float = false.
Proof.
  intros Ha Hs Hpr Hcalls.
  assert (G : exists accs',
             BillingService.accounts (BillingService.run s (charge_calls calls)) = Some accs'
             /\ solvent accs').
  { remember (BillingService.pricing s) as pr eqn:Hprs. symmetry in Hprs.
    revert s accs Ha Hs Hprs.
    induction Hcalls as [| [from category] calls [n Hn] Hrest IH];
      intros s accs Ha Hs Hprs; simpl.
    - exists accs. auto.
    - simpl in Hn. destruct (Hpr category n Hn) as [p [-> Hp0]]. rewrite <- Hprs in Hn.
      destruct (charge_solvent s from category accs p Ha Hs Hn Hp0) as [accs1 [Ha1 Hs1]].
      apply (IH _ accs1 Ha1 Hs1).
      rewrite charge_pricing. exact Hprs. }
  destruct G as [accs' [Ha' Hs']]. exists accs'. split; [exact Ha' |]. split; [exact Hs' |].
  intros i acc Hg. destruct (Hs' i acc Hg) as [b [c [Hb [Hc [Hr Hm]]]]].
  rewrite (currentBalance_whole acc b c Hb Hc Hr Hm), Hb, Hc. simpl.
  rewrite !whole_ltb by (unfold max_safe in *; lia).
  split; apply Z.ltb_ge; lia.
Qed.

(** ** Negative amounts *)

Section Negative.

Lemma round_aux_opp (m e : Z) (l : location) :
  binary_round_aux prec emax true m e l = SFopp (binary_round_aux prec emax false m e l).
Proof.
  unfold binary_round_aux.
  destruct (shr_fexp prec emax m e l) as [mrs' e'].
  destruct (shr_fexp prec emax _ e' loc_Exact) as [mrs'' e''].
  destruct (shr_m mrs''); try reflexivity.
  destruct (Z.leb e'' (emax - prec)); reflexivity.
Qed.

Lemma round_opp (m : positive) (e : Z) :
  binary_round prec emax true m e = SFopp (binary_round prec emax false m e).
Proof.
  unfold binary_round. destruct (shl_align m e _) as [mz ez].
  apply round_aux_opp.
Qed.

Lemma normalize_opp (c : Z) (D : nat) :
  0 < c <= max_safe ->
  binary_normalize prec emax (- c * 2 ^ Z.of_nat D) (- Z.of_nat D) false = SFopp (canon c).
Proof.
  intros [H0 H1]. destruct c as [| p | p]; [lia | | lia].
  rewrite <- (normalize_exact (Zpos p) D) by lia.
  replace (- Zpos p * 2 ^ Z.of_nat D) with (- (Zpos p * 2 ^ Z.of_nat D)) by lia.
  rewrite <- shl_Z. simpl. apply round_opp.
Qed.

Lemma whole_ltb_opp (d x : Z) :
  0 <= d <= max_safe -> 0 <= x <= max_safe -> (whole d <? - whole x)%float = false.
Proof.
  intros Hd Hx. rewrite FloatAxioms.ltb_spec, FloatAxioms.opp_spec, !whole_SF by lia.
  destruct d as [| p | p]; [| | lia]; destruct x as [| q | q]; try lia; reflexivity.
Qed.

Lemma whole_add_opp (c x : Z) :
  0 <= c <= max_safe -> 0 <= x <= max_safe ->
  (whole c + - whole x)%float
  = if x <=? c then whole (c - x) else (- whole (x - c))%float.
Proof.
  intros Hc Hx. apply Prim2SF_inj.
  assert (R : Prim2SF (if x <=? c then whole (c - x) else (- whole (x - c))%float)
              = if x <=? c then canon (c - x) else SFopp (canon (x - c))).
  { destruct (Z.leb_spec x c); [| rewrite FloatAxioms.opp_spec]; rewrite whole_SF by lia;
      reflexivity. }
  rewrite R, FloatAxioms.add_spec, FloatAxioms.opp_spec, !whole_SF by lia. unfold SF64add.
  destruct x as [| q | q]; [| | lia].
  - rewrite Z.sub_0_r. destruct (Z.leb_spec 0 c); [| lia].
    destruct c as [| p | p]; [reflexivity | reflexivity | lia].
  - destruct c as [| p | p]; [| | lia].
    + destruct (Z.leb_spec (Zpos q) 0); [lia |]. reflexivity.
    + cbn [canon]. unfold canonP at 1 2. cbn [SFopp SFadd cond_Zopp].
      assert (Hp : Zpos (Pos.size p) <= 53) by (apply (size_safe (Zpos p)); lia).
      assert (Hq : Zpos (Pos.size q) <= 53) by (apply (size_safe (Zpos q)); lia).
      destruct (min_exponent p q Hp Hq) as [D [-> [HDp HDq]]].
      rewrite !canonP_mantissa by assumption. cbn [cond_Zopp negb].
      destruct (Z.leb_spec (Zpos q) (Zpos p)) as [Hle | Hgt].
      * replace (Zpos p * 2 ^ Z.of_nat D + - (Zpos q * 2 ^ Z.of_nat D))
          with ((Zpos p - Zpos q) * 2 ^ Z.of_nat D) by lia.
        apply (normalize_exact (Zpos p - Zpos q) D). lia.
      * replace (Zpos p * 2 ^ Z.of_nat D + - (Zpos q * 2 ^ Z.of_nat D))
          with (- (Zpos q - Zpos p) * 2 ^ Z.of_nat D) by lia.
        apply (normalize_opp (Zpos q - Zpos p) D). lia.
Qed.

End Negative.

(** X13. [tryCharge] does not look at the sign of the amount: on an account
    within its balance a negative amount is always accepted and lowers
    [chargedBalance], below zero if it is large enough. *)
Theorem tryCharge_negative_amount (a : BillingAccount.t) (b c x : Z) :
  BillingAccount.balance a = whole b ->
  BillingAccount.chargedBalance a = Num (whole c) ->
  0 <= c <= b -> b <= max_safe -> 0 < x <= max_safe ->
  let r := BillingAccount.tryCharge a (Num (- whole x)%float) in
  snd r = true
  /\ BillingAccount.chargedBalance (fst r)
     = Num (if x <=? c then whole (c - x) else (- whole (x - c))%float)
  /\ BillingAccount.balance (fst r) = whole b.
Proof.
  intros Hb Hc Hr Hm Hx r. subst r. rewrite tryCharge_accepted.
  - simpl. split; [reflexivity |]. split; [| exact Hb].
    rewrite Hc. cbn [js_add ToNumber]. f_equal. apply whole_add_opp; lia.
  - rewrite (currentBalance_whole a b c Hb Hc Hr Hm). cbn [ToNumber].
    apply whole_ltb_opp; lia.
Qed.

(** ** Billing service: a sync attempt *)

Section Attempt.
Import BillingService.


Lemma snapshot_of_snapshot (accs : table) (i : string) :
  snapshot_of i (snapshot_balances accs) = BillingAccount.chargedBalance <$> get i accs.
Proof.
  induction accs as [| [k a] rest IH]; simpl; [reflexivity |].
  destruct (String.eqb k i); [reflexivity | exact IH].
Qed.

Lemma get_reset_balances (accs : table) (i : string) :
  get i (reset_balances accs)
  = BillingAccount.set_chargedBalance (Num 0%float) <$> get i accs.
Proof.
  induction accs as [| [k a] rest IH]; simpl; [reflexivity |].
  destruct (String.eqb k i); [reflexivity | exact IH].
Qed.

Lemma syncCharges_begins (send_ok : bool) (s : t) (accs : table) (h : nat) :
  syncTimerHandler s = Some h ->
  WebSocketChannel.status (wsChannel s) = WebSocketChannel.connected ->
  pendingCharges s <> ∅ ->
  accounts s = Some accs ->
  syncInProgress s = false ->
  syncCharges send_ok s
  = set_sync true
      (Some (mkAttempt (pendingCharges s) (snapshot_balances accs)
               (snd (WebSocketChannel.notify send_ok (pendingCharges s) (wsChannel s)))))
      (set_wsChannel (fst (WebSocketChannel.notify send_ok (pendingCharges s) (wsChannel s)))
         (set_accounts (Some (reset_balances accs)) (set_pendingCharges ∅ s))).
Proof.
  intros Hh Hst Hp Ha Hin. unfold syncCharges. rewrite Hh, Hin, Ha.
  rewrite bool_decide_eq_false_2 by (intros H; apply H, Hst).
  rewrite (bool_decide_eq_false_2 _ Hp).
  rewrite bool_decide_eq_true_2 by eauto. simpl.
  destruct (WebSocketChannel.notify _ _ _); reflexivity.
Qed.





Lemma step_stays_cancelled (s : t) (e : event) :
  not_connect e = true -> syncTimerHandler s = None ->
  syncTimerHandler (step s e) = None /\ timers (step s e) ⊆ timers s.
Proof.
  intros He Hs. destruct e; simpl in *; try discriminate.
  - destruct (charge_frame s from category) as [-> [-> _]]. auto.
  - split; [reflexivity |]. rewrite Hs. reflexivity.
  - destruct m as [d | d |]; simpl; auto.
    unfold onBalancesUpdated. simpl. destruct (accounts s); simpl; auto.
  - unfold syncTimerFires. destruct (bool_decide _); [| auto].
    unfold syncCharges. simpl. rewrite Hs. simpl.
    split; [reflexivity | apply subseteq_difference_l; reflexivity].
  - unfold syncCharges_resume. destruct (suspended s) as [a |]; [| auto].
    destruct (fulfilled a).
    + unfold rearm. simpl. rewrite Hs. simpl. auto.
    + simpl. destruct (accounts s) as [accs |]; [| destruct (chargedBalances a)];
        unfold rearm; simpl; rewrite ?Hs; simpl; auto.
  - auto.
Qed.

End Attempt.

(** X14. A tick that starts a sync (a handle is stored, the channel's status is
    ['connected'], the ledger is not empty, the accounts are loaded and no
    sync is in flight) hands the whole ledger to the channel: on the socket
    the channel holds it is sent, and when the channel holds none nothing
    is sent and the attempt is a rejected one. The tick leaves an empty
    ledger, every [chargedBalance] at 0 with its old value in the
    attempt's snapshot, every [balance] as it was, and arms no timer:
    until the send settles the loop rests on the timers armed before. *)
Theorem sync_attempt_rotates_state (send_ok : bool) (s : BillingService.t)
    (accs : BillingService.table) (h : nat) :
  BillingService.syncTimerHandler s = Some h ->
  WebSocketChannel.status (BillingService.wsChannel s) = WebSocketChannel.connected ->
  BillingService.pendingCharges s <> ∅ ->
  BillingService.accounts s = Some accs ->
  BillingService.syncInProgress s = false ->
  let s' := BillingService.syncCharges send_ok s in
  BillingService.pendingCharges s' = ∅
  /\ BillingService.data <$> BillingService.suspended s'
     = Some (BillingService.pendingCharges s)
  /\ (forall sock, WebSocketChannel.ws (BillingService.wsChannel s) = Some sock ->
        WebSocketChannel.effects (BillingService.wsChannel s')
        = (WebSocketChannel.effects (BillingService.wsChannel s)
           ++ [WebSocketChannel.SockSend sock (BillingService.pendingCharges s)])%list
        /\ BillingService.fulfilled <$> BillingService.suspended s' = Some send_ok)
  /\ (WebSocketChannel.ws (BillingService.wsChannel s) = None ->
      WebSocketChannel.effects (BillingService.wsChannel s')
      = WebSocketChannel.effects (BillingService.wsChannel s)
      /\ BillingService.fulfilled <$> BillingService.suspended s' = Some false)
  /\ (forall i,
        BillingAccount.chargedBalance
          <$> (BillingService.accounts s' ≫= BillingService.get i)
        = (fun _ => Num 0%float) <$> BillingService.get i accs)
  /\ (forall i,
        BillingAccount.balance <$> (BillingService.accounts s' ≫= BillingService.get i)
        = BillingAccount.balance <$> BillingService.get i accs)
  /\ (forall i,
        BillingService.suspended s'
          ≫= (fun a => snapshot_of i (BillingService.chargedBalances a))
        = BillingAccount.chargedBalance <$> BillingService.get i accs)
  /\ BillingService.syncInProgress s' = true
  /\ BillingService.timers s' = BillingService.timers s
  /\ BillingService.syncTimerHandler s' = Some h.
Proof.
  intros Hh Hst Hp Ha Hin s'. subst s'.
  rewrite (syncCharges_begins send_ok s accs h Hh Hst Hp Ha Hin). simpl.
  split; [reflexivity |]. split; [reflexivity |].
  split; [| split].
  - intros sock Hws. unfold WebSocketChannel.notify. rewrite Hws. split; reflexivity.
  - intros Hws. unfold WebSocketChannel.notify. rewrite Hws. split; reflexivity.
  - split; [| split; [| split]].
    + intros i. rewrite get_reset_balances. destruct (BillingService.get i accs); reflexivity.
    + intros i. rewrite get_reset_balances. destruct (BillingService.get i accs); reflexivity.
    + intros i. apply snapshot_of_snapshot.
    + auto.
Qed.


(** X16. For an account that was charged while a rejected send was pending, the
    failure handler leaves, category by category, the unsent entry added
    component-wise to the new one; a category on one side only is kept as
    it is (an unsent one that names a member of [Object.prototype] is
    added to that member, which has no elements 0 and 1). *)
Theorem failed_sync_merges_charged_account (unsent pending : ledger) (i : string)
    (newCharges : gmap string (JsValue * JsValue)) (category : string) :
  pending !! i = Some newCharges ->
  BillingService.merge_unsent unsent pending !! i ≫= (fun m => m !! category)
  = match unsent !! i ≫= (fun m => m !! category), newCharges !! category with
    | Some u, Some n => Some (BillingService.pair_add u n)
    | Some u, None =>
        Some (BillingService.pair_add u
                (if Js.proto_member category then (Undefined, Undefined)
                 else (Num 0%float, Num 0%float)))
    | None, o => o
    end.
Proof.
  intros Hp. rewrite merge_unsent_lookup, Hp.
  destruct (unsent !! i) as [unsentCharges |]; simpl.
  - rewrite merge_categories_lookup. unfold BillingService.new_entry, Js.read.
    destruct (unsentCharges !! category); destruct (newCharges !! category);
      try reflexivity.
    destruct (Js.proto_member category); reflexivity.
  - destruct (newCharges !! category); reflexivity.
Qed.

(** X17. After [terminate()] the sync timer stays off whatever happens next,
    short of a new [connect()]: ticks, a send that settles, charges and
    messages arm no timer and store no handle. *)
Theorem sync_timer_stays_cancelled (s : BillingService.t)
    (es : list BillingService.event) :
  Forall (fun e => not_connect e = true) es ->
  let s' := BillingService.run (BillingService.terminate s) es in
  BillingService.syncTimerHandler s' = None
  /\ BillingService.timers s' ⊆ BillingService.timers s.
Proof.
  intros Hes.
  assert (G : forall s0, BillingService.syncTimerHandler s0 = None ->
                         BillingService.syncTimerHandler (BillingService.run s0 es) = None
                         /\ BillingService.timers (BillingService.run s0 es)
                            ⊆ BillingService.timers s0).
  { unfold BillingService.run. induction Hes as [| e es He Hes IH]; intros s0 H0; simpl.
    - split; [exact H0 | reflexivity].
    - destruct (step_stays_cancelled s0 e He H0) as [H1 H2].
      destruct (IH _ H1) as [G1 G2]. split; [exact G1 | etrans; eauto]. }
  destruct (G (BillingService.terminate s) eq_refl) as [G1 G2].
  split; [exact G1 |]. etrans; [exact G2 |]. simpl.
  destruct (BillingService.syncTimerHandler s); [apply subseteq_difference_l |]; reflexivity.
Qed.

(** ** Billing service: the account table *)

Section Table.
Import BillingService.

Lemma get_Some_elem (accs : table) (i : string) (a : BillingAccount.t) :
  get i accs = Some a -> (i, a) ∈ accs.
Proof.
  induction accs as [| [k a'] rest IH]; simpl; [discriminate |].
  destruct (String.eqb_spec k i) as [-> | Hne].
  - intros [= ->]. left.
  - intros H. right. apply IH, H.
Qed.

Lemma get_elem_NoDup (accs : table) (k : string) (a : BillingAccount.t) :
  NoDup accs.*1 -> (k, a) ∈ accs -> get k accs = Some a.
Proof.
  induction accs as [| [k' a'] rest IH]; intros Hnd Hin; [inversion Hin |].
  simpl in Hnd. apply NoDup_cons in Hnd as [Hk' Hnd]. simpl.
  apply elem_of_cons in Hin as [[= <- <-] | Hin].
  - rewrite String.eqb_refl. reflexivity.
  - destruct (String.eqb_spec k' k) as [-> | Hne]; [| apply IH; assumption].
    exfalso. apply Hk'. apply list_elem_of_fmap. exists (k, a). auto.
Qed.

Lemma set_existing_keys (k : string) (a : BillingAccount.t) (accs : table) :
  (set_existing k a accs).*1 = accs.*1.
Proof.
  induction accs as [| [k' a'] rest IH]; simpl; [reflexivity |].
  destruct (String.eqb k' k); simpl; [reflexivity | f_equal; exact IH].
Qed.

Lemma set_existing_Forall (P : string * BillingAccount.t -> Prop) (k : string)
    (a : BillingAccount.t) (accs : table) :
  P (k, a) -> Forall P accs -> Forall P (set_existing k a accs).
Proof.
  intros Hk Hall. induction Hall as [| [k' a'] rest Hx Hrest IH]; simpl; [constructor |].
  destruct (String.eqb_spec k' k) as [-> | Hne]; constructor; auto.
Qed.

Lemma insert_new_perm (k : string) (a : BillingAccount.t) (accs : table) :
  insert_new k a accs ≡ₚ (k, a) :: accs.
Proof.
  induction accs as [| [k' a'] rest IH]; simpl; [reflexivity |].
  destruct (Js.precedes k k'); [reflexivity |].
  rewrite IH. apply Permutation_swap.
Qed.

Lemma put_keys_elem (k : string) (a : BillingAccount.t) (accs : table) (x : string) :
  x ∈ (put k a accs).*1 -> x = k \/ x ∈ accs.*1.
Proof.
  unfold put. destruct (get k accs) as [a0 |].
  - rewrite set_existing_keys. auto.
  - rewrite insert_new_perm. simpl. intros H. apply elem_of_cons in H. exact H.
Qed.

Lemma get_None_keys (accs : table) (k : string) : get k accs = None -> k ∉ accs.*1.
Proof.
  induction accs as [| [k' a'] rest IH]; simpl; intros Hg Hin; [inversion Hin |].
  destruct (String.eqb_spec k' k) as [-> | Hne]; [discriminate |].
  apply elem_of_cons in Hin as [-> | Hin]; [congruence | exact (IH Hg Hin)].
Qed.

Lemma keyed_put (k : string) (a : BillingAccount.t) (accs : table) :
  keyed accs -> BillingAccount.id a = k -> keyed (put k a accs).
Proof.
  intros [Hnd Hid] Ha. unfold put, keyed. destruct (get k accs) as [a0 |] eqn:Hg.
  - rewrite set_existing_keys. split; [exact Hnd |].
    apply set_existing_Forall; [exact Ha | exact Hid].
  - rewrite insert_new_perm. simpl. split.
    + apply NoDup_cons. split; [apply get_None_keys, Hg | exact Hnd].
    + constructor; [exact Ha | exact Hid].
Qed.

Lemma get_keyed (accs : table) (i : string) (a : BillingAccount.t) :
  keyed accs -> get i accs = Some a -> BillingAccount.id a = i.
Proof.
  intros [_ Hid] Hg. apply get_Some_elem in Hg.
  rewrite Forall_forall in Hid. apply (Hid _ Hg).
Qed.

Lemma keyed_reset (accs : table) : keyed accs -> keyed (reset_balances accs).
Proof.
  intros [Hnd Hid]. split.
  - replace (reset_balances accs).*1 with accs.*1; [exact Hnd |].
    clear. induction accs as [| [k a] rest IH]; simpl; [reflexivity | f_equal; exact IH].
  - clear Hnd. induction Hid as [| [k a] rest Hk Hrest IH]; simpl; constructor; auto.
Qed.

Lemma keyed_restore (charged : list (string * JsValue)) :
  forall accs, keyed accs -> keyed (restore_balances charged accs).
Proof.
  unfold restore_balances. induction charged as [| [k c] rest IH]; intros accs H; simpl.
  - exact H.
  - apply IH. unfold Js.read. destruct (get k accs) as [acc |] eqn:Hg;
      [| destruct (Js.proto_member k); exact H].
    apply keyed_put; [exact H |]. simpl. eapply get_keyed; eauto.
Qed.

Lemma keyed_accounts_update (d : list BillingAccount.props) :
  forall accs, keyed accs -> keyed (update_accounts d accs).
Proof.
  induction d as [| p d IH]; intros accs H; simpl; [exact H |].
  destruct (Js.read _ _) as [account | |]; [| exact H |];
    apply IH; apply keyed_put; [exact H | reflexivity | exact H | reflexivity].
Qed.

Lemma keyed_balance_update (d : list (string * Number)) :
  forall accs,
    keyed accs ->
    keyed (foldl (fun accs '(i, b) =>
                    match Js.read (get i accs) i with
                    | Js.Own acc => put i (BillingAccount.set_balance b acc) accs
                    | _ => accs
                    end)
                 accs d).
Proof.
  induction d as [| [k b] d IH]; intros accs H; simpl; [exact H |].
  apply IH. unfold Js.read. destruct (get k accs) as [acc |] eqn:Hg;
    [| destruct (Js.proto_member k); exact H].
  apply keyed_put; [exact H |]. simpl. eapply get_keyed; eauto.
Qed.

Lemma keyed_nil : keyed [].
Proof. split; [apply NoDup_nil_2 | constructor]. Qed.

Lemma charge_account_keyed (s : t) (from category : string) :
  keyed (default [] (accounts s)) ->
  keyed (default [] (accounts (fst (charge_account s from category)))).
Proof.
  intros H. unfold charge_account.
  destruct (accounts s) as [accs |] eqn:Ha; [| simpl; rewrite Ha; exact H].
  unfold Js.read.
  destruct (get from accs) as [account |] eqn:Hg;
    [| destruct (Js.proto_member from); simpl; rewrite Ha; exact H].
  unfold BillingAccount.tryCharge.
  destruct (_ <? _)%float; [simpl; rewrite Ha; exact H |].
  simpl. apply keyed_put; [exact H |]. simpl. eapply get_keyed; eauto.
Qed.

Lemma step_keyed (s : t) (e : event) :
  keyed (default [] (accounts s)) -> keyed (default [] (accounts (step s e))).
Proof.
  intros H. destruct e; simpl.
  - destruct from as [i | h]; simpl; [apply charge_account_keyed, H |].
    destruct (matchAccountFromRequestHeaders s h); [exact H |].
    destruct (String.eqb _ _); [exact H | apply charge_account_keyed, H].
  - unfold connect. destruct (decide _); exact H.
  - exact H.
  - destruct m as [d | d |]; simpl.
    + apply keyed_accounts_update, H.
    + unfold onBalancesUpdated. simpl. destruct (accounts s) as [accs |] eqn:Ha; simpl.
      * apply keyed_balance_update, H.
      * rewrite Ha. exact H.
    + exact H.
  - unfold syncTimerFires. destruct (bool_decide _); [| exact H].
    unfold syncCharges, rearm. simpl.
    destruct (syncTimerHandler s); [| exact H].
    destruct (_ || _ || _); [exact H |].
    destruct (syncInProgress s); [exact H |].
    destruct (WebSocketChannel.notify _ _ _). simpl. apply keyed_reset, H.
  - unfold syncCharges_resume. destruct (suspended s) as [a |]; [| exact H].
    destruct (fulfilled a).
    + unfold rearm. simpl. destruct (syncTimerHandler s); exact H.
    + simpl. destruct (accounts s) as [accs |] eqn:Ha.
      * unfold rearm. simpl.
        destruct (syncTimerHandler s); simpl; apply keyed_restore, H.
      * destruct (chargedBalances a); unfold rearm; simpl;
          try destruct (syncTimerHandler s); simpl; rewrite ?Ha; exact H.
  - exact H.
Qed.

End Table.

(** X18. From a table in which every account sits under its own id, once, every
    run of the service leaves such a table: charges, both halves of a
    sync, and the messages of the server keep the ids and the keys
    together. *)
Theorem table_stays_keyed (s : BillingService.t) (es : list BillingService.event) :
  keyed (default [] (BillingService.accounts s)) ->
  keyed (default [] (BillingService.accounts (BillingService.run s es))).
Proof.
  unfold BillingService.run. revert s.
  induction es as [| e es IH]; intros s H; simpl; [exact H |].
  apply IH, step_keyed, H.
Qed.

(** X19. A charge by request headers debits the account the headers resolve to:
    in a keyed table the matched account is the one stored under its id,
    and the call does what a charge by that id does. *)
Theorem header_charge_debits_matched_account (s : BillingService.t)
    (accs : BillingService.table) (h : BillingService.headers)
    (a : BillingAccount.t) (category : string) :
  BillingService.accounts s = Some accs ->
  keyed accs ->
  BillingService.matchAccountFromRequestHeaders s h = BillingService.Account a ->
  BillingService.get (BillingAccount.id a) accs = Some a
  /\ (BillingAccount.id a <> "" ->
      BillingService.charge s (BillingService.RequestHeaders h) category
      = BillingService.charge s (BillingService.AccountId (BillingAccount.id a)) category).
Proof.
  intros Ha Hk Hm. split.
  - destruct (matched_account_held s h a Hm) as [accs' [Ha' Hin]].
    rewrite Ha in Ha'. injection Ha' as <-.
    apply in_map_iff in Hin as [[k a'] [E Hin]]. simpl in E. subst a'.
    apply list_elem_of_In in Hin.
    destruct Hk as [Hnd Hid]. rewrite Forall_forall in Hid.
    pose proof (Hid _ Hin) as E. simpl in E. rewrite E.
    apply get_elem_NoDup; assumption.
  - intros Hne. simpl. rewrite Hm.
    destruct (String.eqb_spec (BillingAccount.id a) ""); [contradiction | reflexivity].
Qed.

(** ** Billing service: messages of the server *)

Section Messages.
Import BillingService.


(** A record named like a member of [Object.prototype] ends the update:
    the records before it are applied, the others are not. *)
Lemma accounts_update_aborts (d1 d2 : list BillingAccount.props) (p : BillingAccount.props) :
  forall accs,
    plain_ids d1 ->
    Js.proto_member (BillingAccount.p_id p) = true ->
    get (BillingAccount.p_id p) (update_accounts d1 accs) = None ->
    update_accounts (d1 ++ p :: d2) accs = update_accounts d1 accs.
Proof.
  induction d1 as [| q d1 IH]; intros accs Hd Hp Hg; simpl in *.
  - unfold Js.read. rewrite Hg, Hp. reflexivity.
  - apply Forall_cons in Hd as [Hq Hd]. unfold Js.read in *. rewrite Hq in *.
    destruct (get (BillingAccount.p_id q) accs); apply IH; assumption.
Qed.

Lemma accounts_update_keeps_absent (d : list BillingAccount.props) (k : string) :
  forall accs,
    Forall (fun p => BillingAccount.p_id p <> k) d ->
    get k accs = None -> get k (update_accounts d accs) = None.
Proof.
  induction d as [| p d IH]; intros accs Hd Hg; simpl; [exact Hg |].
  apply Forall_cons in Hd as [Hp Hd].
  destruct (Js.read _ _) as [account | |]; [| exact Hg |];
    apply IH; try exact Hd; rewrite get_put_ne by exact Hp; exact Hg.
Qed.


Lemma split_space_plain (k : string) : no_space k = true -> Js.split_space k = [k].
Proof.
  induction k as [| c k IH]; [reflexivity |].
  simpl. intros H. apply andb_true_iff in H as [Hc Hk].
  apply negb_true_iff in Hc. rewrite Hc, (IH Hk). reflexivity.
Qed.

Lemma split_space_cons (c : ascii) (s : string) :
  Js.split_space (String c s)
  = if Ascii.eqb c " "%char then EmptyString :: Js.split_space s
    else match Js.split_space s with
         | w :: ws => String c w :: ws
         | [] => [String c EmptyString]
         end.
Proof. reflexivity. Qed.

Lemma split_space_bearer (k : string) :
  Js.split_space ("Bearer " ++ k) = "Bearer" :: Js.split_space k.
Proof.
  change ("Bearer " ++ k)
    with (String "B" (String "e" (String "a" (String "r" (String "e" (String "r"
            (String " " k))))))).
  rewrite 7 split_space_cons. reflexivity.
Qed.

Lemma has_key_iff (k : string) (a : BillingAccount.t) :
  has_key (Some k) a = true <->
  exists ks, BillingAccount.apiKeys a = Some ks /\ In k ks.
Proof.
  unfold has_key. destruct (BillingAccount.apiKeys a) as [ks |].
  - rewrite existsb_exists. split.
    + intros [x [Hin Hx]]. apply String.eqb_eq in Hx. subst x. eauto.
    + intros [ks' [[= <-] Hin]]. exists k. split; [exact Hin | apply String.eqb_refl].
  - split; [discriminate | intros [ks [H _]]; discriminate].
Qed.

Lemma bearer_lookup (s : t) (accs : table) (h : headers) (k : string) :
  accounts s = Some accs -> origin h = None ->
  authorization h = Some ("Bearer " ++ k) -> no_space k = true ->
  matchAccountFromRequestHeaders s h
  = match List.find (has_key (Some k)) (List.map snd accs) with
    | Some account => Account account
    | None => Bool false
    end.
Proof.
  intros Ha Ho Hauth Hk. unfold matchAccountFromRequestHeaders.
  rewrite Ho, Ha, Hauth. cbn [truthy OriginMatcher.has].
  change (match "Bearer " ++ k with
          | EmptyString => None
          | String _ _ => Some ("Bearer " ++ k)
          end) with (Some ("Bearer " ++ k)).
  cbv beta iota. rewrite split_space_bearer, (split_space_plain k Hk). reflexivity.
Qed.

Lemma take_substring (n : nat) (s : string) : Js.take n s ++ Js.substring n s = s.
Proof.
  revert s. induction n as [| n IH]; intros s; [destruct s; reflexivity |].
  destruct s as [| c s]; [reflexivity |]. simpl. rewrite str_app_cons, IH. reflexivity.
Qed.

Lemma substring_app (pre p : string) : Js.substring (String.length pre) (pre ++ p) = p.
Proof.
  induction pre as [| c pre IH]; [destruct p; reflexivity |].
  rewrite str_app_cons. simpl. exact IH.
Qed.

Lemma endsWith_iff (s p : string) : Js.endsWith s p = true <-> exists pre, s = pre ++ p.
Proof.
  unfold Js.endsWith. split.
  - intros H. apply andb_true_iff in H as [H _]. apply String.eqb_eq in H.
    exists (Js.take (String.length s - String.length p) s).
    pose proof (take_substring (String.length s - String.length p) s) as T.
    rewrite H in T. symmetry. exact T.
  - intros [pre ->]. rewrite str_length_app.
    replace (String.length pre + String.length p - String.length p)%nat
      with (String.length pre) by lia.
    rewrite substring_app, String.eqb_refl. simpl. apply Nat.leb_le. lia.
Qed.

End Messages.



(** X22. With no origin header, [Authorization: Bearer k] resolves to an account
    of the table that holds the key [k], and to the boolean false exactly
    when no account holds it; it never yields the boolean true. *)
Theorem bearer_key_resolves (s : BillingService.t) (accs : BillingService.table)
    (h : BillingService.headers) (k : string) :
  BillingService.accounts s = Some accs ->
  BillingService.origin h = None ->
  BillingService.authorization h = Some ("Bearer " ++ k) ->
  no_space k = true ->
  (forall a, BillingService.matchAccountFromRequestHeaders s h = BillingService.Account a ->
             In a (List.map snd accs)
             /\ exists ks, BillingAccount.apiKeys a = Some ks /\ In k ks)
  /\ (BillingService.matchAccountFromRequestHeaders s h = BillingService.Bool false <->
      forall a ks, In a (List.map snd accs) -> BillingAccount.apiKeys a = Some ks ->
                   ~ In k ks)
  /\ BillingService.matchAccountFromRequestHeaders s h <> BillingService.Bool true.
Proof.
  intros Ha Ho Hauth Hk. rewrite (bearer_lookup s accs h k Ha Ho Hauth Hk).
  destruct (List.find _ _) as [account |] eqn:Hf.
  - apply find_some in Hf as [Hin Hkey]. apply has_key_iff in Hkey.
    split; [intros a [= <-]; auto |]. split; [| discriminate].
    split; [discriminate |]. intros Hnone. exfalso.
    destruct Hkey as [ks [Hks Hink]]. eapply Hnone; eauto.
  - split; [discriminate |]. split; [| discriminate].
    split; [| reflexivity]. intros _ a ks Hin Hks Hink.
    pose proof (find_none _ _ Hf a Hin) as Hn.
    assert (BillingService.has_key (Some k) a = true) by (apply has_key_iff; eauto).
    congruence.
Qed.

(** X23. An account whose only origin is the wildcard ["*.d"] is matched by the
    request origins that end with [".d"] (and by the pattern itself), and
    by no other: not by the root ["d"], and not by ["evil-d"]. *)
Theorem account_wildcard_origin (a : BillingAccount.t) (d o : string) :
  BillingAccount.origins a = Some ["*." ++ d] ->
  BillingService.origin_matches o a = true <->
  o = "*." ++ d \/ exists sub, o = sub ++ "." ++ d.
Proof.
  intros Ho. unfold BillingService.origin_matches. rewrite Ho. cbn [existsb].
  assert (Hs : Js.startsWith ("*." ++ d) "*." = true).
  { change ("*." ++ d) with (String "*" (String "." d)).
    unfold Js.startsWith. simpl. apply prefix_nil. }
  assert (Ht : Js.substring 1 ("*." ++ d) = "." ++ d) by reflexivity.
  rewrite Hs, Ht, orb_false_r, andb_true_l, orb_true_iff, String.eqb_eq, endsWith_iff.
  split; (intros [H | H]; [left; auto | right; exact H]).
Qed.

(** X24. With a loaded table, [charge] by an id that the table does not hold
    but inherits from [Object.prototype] (["constructor"], ["__proto__"],
    ...) throws, whatever the category, and leaves the service as it
    was: the lookup finds the inherited member, on which [tryCharge] is not
    a function. *)
Theorem charge_inherited_id_throws (s : BillingService.t) (accs : BillingService.table)
    (i category : string) :
  BillingService.accounts s = Some accs ->
  BillingService.get i accs = None ->
  Js.proto_member i = true ->
  BillingService.charge s (BillingService.AccountId i) category = (s, Throw).
Proof. intros Ha Hg Hp. simpl. apply (charge_account_inherited s accs); assumption. Qed.

(** X25. An accounts-update stops at the first record whose id names a member
    of [Object.prototype]: the records before it are applied, that record
    and those after it are not, and no account is stored under the
    name. *)
Theorem accounts_update_stops_at_inherited_id (s : BillingService.t)
    (d1 d2 : list BillingAccount.props) (p : BillingAccount.props) :
  plain_ids d1 ->
  Js.proto_member (BillingAccount.p_id p) = true ->
  BillingService.get (BillingAccount.p_id p) (default [] (BillingService.accounts s)) = None ->
  BillingService.onAccountsUpdate (d1 ++ p :: d2)%list s = BillingService.onAccountsUpdate d1 s
  /\ BillingService.accounts (BillingService.onAccountsUpdate (d1 ++ p :: d2)%list s)
       ≫= BillingService.get (BillingAccount.p_id p)
     = None.
Proof.
  intros Hd Hp Hg.
  assert (Hk : BillingService.get (BillingAccount.p_id p)
                 (BillingService.update_accounts d1
                    (default [] (BillingService.accounts s))) = None).
  { apply accounts_update_keeps_absent; [| exact Hg].
    eapply Forall_impl; [exact Hd |]. simpl. intros q Hq E. rewrite E in Hq. congruence. }
  unfold BillingService.onAccountsUpdate.
  rewrite (accounts_update_aborts d1 d2 p _ Hd Hp Hk).
  split; [reflexivity | exact Hk].
Qed.

(** ** Instances *)

Lemma match_accepts_plain_entry_witness :
  OriginMatcher.match_ (OriginMatcher.new ["localhost"; "*.example.com"]) (Some "localhost")
  = Return true.
Proof.
  apply (proj1 (match_accepts_plain_entry ["localhost"; "*.example.com"] "localhost"
                  ltac:(left) ltac:(reflexivity))).
Defined.

Lemma match_accepts_behind_nonword_witness :
  OriginMatcher.match_ (OriginMatcher.new ["*.example.com"])
    (Some ("evil-" ++ "example" ++ "." ++ "com"))
  = Return true.
Proof.
  apply (proj1 (match_accepts_behind_nonword ["*.example.com"] "evil-" "example" "com"
                  ltac:(left) ltac:(discriminate) ltac:(reflexivity)
                  ltac:(discriminate) ltac:(reflexivity) ltac:(reflexivity))).
Defined.

Lemma match_without_dot_witness :
  OriginMatcher.match_ (OriginMatcher.new ["*.example.com"]) (Some "localhost") = Throw
  /\ OriginMatcher.match_guarded (OriginMatcher.new ["*.example.com"]) (Some "localhost")
     = Return false.
Proof.
  apply (match_without_dot (OriginMatcher.new ["*.example.com"]) "localhost").
  - reflexivity.
  - apply (bool_decide_unpack _). vm_compute. exact I.
Defined.

Lemma match_guarded_refines_witness :
  OriginMatcher.match_guarded (OriginMatcher.new ["*.example.com"]) (Some "api.example.com")
  = Return (match OriginMatcher.match_ (OriginMatcher.new ["*.example.com"])
                    (Some "api.example.com") with
            | Return b => b
            | Throw => false
            end).
Proof.
  apply (match_guarded_refines (OriginMatcher.new ["*.example.com"]) "api.example.com").
  discriminate.
Defined.

Lemma status_connected_needs_message_witness :
  WebSocketChannel.status
    (WebSocketChannel.run WebSocketChannel.new
       [WebSocketChannel.EConnect; WebSocketChannel.ESockError;
        WebSocketChannel.ESockClose 1006; WebSocketChannel.EReconnectTimer;
        WebSocketChannel.EClose])
  = WebSocketChannel.disconnected.
Proof.
  apply (status_connected_needs_message
           [WebSocketChannel.EConnect; WebSocketChannel.ESockError;
            WebSocketChannel.ESockClose 1006; WebSocketChannel.EReconnectTimer;
            WebSocketChannel.EClose]).
  repeat constructor.
Defined.

Lemma closed_channel_stays_closed_witness :
  let c := WebSocketChannel.onClose 1008 (WebSocketChannel.connect WebSocketChannel.new) in
  let c' := WebSocketChannel.run c
              [WebSocketChannel.ESockClose 1006; WebSocketChannel.EMessage;
               WebSocketChannel.EClose] in
  WebSocketChannel.autoReconnect c' <> Some true
  /\ WebSocketChannel.opened c' = WebSocketChannel.opened c
  /\ WebSocketChannel.reconnectTimers c' = WebSocketChannel.reconnectTimers c.
Proof.
  intros c.
  apply (closed_channel_stays_closed c
           [WebSocketChannel.ESockClose 1006; WebSocketChannel.EMessage;
            WebSocketChannel.EClose]).
  - vm_compute. discriminate.
  - repeat constructor.
Defined.


Lemma charges_never_overspend_witness :
  let accs := [("acc", BillingAccount.mk "acc" None None (whole 12) (Num (whole 0)))] in
  let s := BillingService.mk 5 {[ "tx" := whole 5 ]} ∅ (Some accs) ∅
             WebSocketChannel.new None false ∅ O None in
  exists accs',
    BillingService.accounts
      (BillingService.run s
         (charge_calls [(BillingService.AccountId "acc", "tx");
                        (BillingService.AccountId "acc", "tx");
                        (BillingService.AccountId "acc", "tx")]))
    = Some accs'
    /\ solvent accs'
    /\ forall i acc,
        BillingService.get i accs' = Some acc ->
        (BillingAccount.balance acc <? ToNumber (BillingAccount.chargedBalance acc))%float
        = false
        /\ (BillingAccount.currentBalance acc <? whole 0)%float = false.
Proof.
  intros accs s.
  apply (charges_never_overspend s accs
           [(BillingService.AccountId "acc", "tx"); (BillingService.AccountId "acc", "tx");
            (BillingService.AccountId "acc", "tx")]).
  - reflexivity.
  - intros i acc H. subst accs. cbn [BillingService.get] in H.
    destruct (String.eqb "acc" i); [| discriminate].
    injection H as <-. exists 12, 0. simpl. unfold max_safe. repeat split; lia.
  - intros category n H. subst s. cbn [BillingService.pricing] in H.
    apply lookup_singleton_Some in H as [_ <-].
    exists 5. split; [reflexivity | unfold max_safe; lia].
  - repeat constructor; exists (whole 5); reflexivity.
Defined.

Lemma tryCharge_negative_amount_witness :
  let a := BillingAccount.mk "acc" None None (whole 100) (Num (whole 3)) in
  let r := BillingAccount.tryCharge a (Num (- whole 5)%float) in
  snd r = true
  /\ BillingAccount.chargedBalance (fst r) = Num (- whole 2)%float
  /\ BillingAccount.balance (fst r) = whole 100.
Proof.
  intros a.
  apply (tryCharge_negative_amount a 100 3 5); try reflexivity; unfold max_safe; lia.
Defined.

Lemma sync_attempt_rotates_state_witness :
  let s' := BillingService.syncCharges true charged_service in
  BillingService.pendingCharges charged_service
  = {[ "acc" := {[ "tx" := (Num 10%float, Num 50%float) ]} ]}
  /\ BillingService.pendingCharges s' = ∅
  /\ WebSocketChannel.effects (BillingService.wsChannel s')
     = (WebSocketChannel.effects (BillingService.wsChannel charged_service)
        ++ [WebSocketChannel.SockSend O
              {[ "acc" := {[ "tx" := (Num 10%float, Num 50%float) ]} ]}])%list
  /\ BillingAccount.chargedBalance
       <$> (BillingService.accounts charged_service ≫= BillingService.get "acc")
     = Some (Num 50%float)
  /\ BillingAccount.chargedBalance <$> (BillingService.accounts s' ≫= BillingService.get "acc")
     = Some (Num 0%float)
  /\ BillingAccount.balance <$> (BillingService.accounts s' ≫= BillingService.get "acc")
     = Some 100%float
  /\ BillingService.timers s' = BillingService.timers charged_service.
Proof.
  intros s'.
  destruct (sync_attempt_rotates_state true charged_service charged_table O)
    as [H1 [_ [H3 [_ [H5 [H6 [_ [_ [H9 _]]]]]]]]].
  - reflexivity.
  - reflexivity.
  - vm_compute. discriminate.
  - reflexivity.
  - reflexivity.
  - split; [reflexivity |]. split; [exact H1 |].
    split; [exact (proj1 (H3 O eq_refl)) |].
    split; [reflexivity |].
    split; [exact (H5 "acc") |]. split; [exact (H6 "acc") | exact H9].
Defined.


Lemma failed_sync_merges_charged_account_witness :
  BillingService.merge_unsent
    {[ "acc" := {[ "tx" := (Num 10%float, Num 50%float) ]} ]}
    {[ "acc" := {[ "tx" := (Num 5%float, Num 25%float) ]} ]} !! "acc"
    ≫= (fun m => m !! "tx")
  = Some (BillingService.pair_add (Num 10%float, Num 50%float) (Num 5%float, Num 25%float)).
Proof.
  exact (failed_sync_merges_charged_account
           {[ "acc" := {[ "tx" := (Num 10%float, Num 50%float) ]} ]}
           {[ "acc" := {[ "tx" := (Num 5%float, Num 25%float) ]} ]} "acc"
           {[ "tx" := (Num 5%float, Num 25%float) ]} "tx" eq_refl).
Defined.

Lemma sync_timer_stays_cancelled_witness :
  let s' := BillingService.run (BillingService.terminate charged_service)
              [BillingService.ESyncTimer O true; charge_tx; BillingService.ESyncSettled] in
  BillingService.syncTimerHandler s' = None
  /\ BillingService.timers s' ⊆ BillingService.timers charged_service.
Proof.
  apply (sync_timer_stays_cancelled charged_service
           [BillingService.ESyncTimer O true; charge_tx; BillingService.ESyncSettled]).
  repeat constructor.
Defined.

Lemma table_stays_keyed_witness :
  keyed (default [] (BillingService.accounts
                       (BillingService.run fresh_service
                          [BillingService.EMessage
                             (BillingService.accounts_update [acc_props; acc_props]);
                           charge_tx]))).
Proof.
  apply (table_stays_keyed fresh_service).
  split; [apply NoDup_nil_2 | constructor].
Defined.

Lemma header_charge_debits_matched_account_witness :
  BillingService.charge keyed_service (BillingService.RequestHeaders bearer_k1) "tx"
  = BillingService.charge keyed_service (BillingService.AccountId "acc") "tx".
Proof.
  apply (proj2 (header_charge_debits_matched_account keyed_service keyed_table bearer_k1
                  (BillingAccount.mk "acc" (Some ["k1"]) (Some ["*.shop.example"])
                     100%float (Num 0%float)) "tx"
                  eq_refl
                  ltac:(split; [apply NoDup_singleton | repeat constructor])
                  eq_refl)).
  discriminate.
Defined.



Lemma bearer_key_resolves_witness :
  BillingService.matchAccountFromRequestHeaders keyed_service bearer_k1
  <> BillingService.Bool true.
Proof.
  apply (proj2 (proj2 (bearer_key_resolves keyed_service keyed_table bearer_k1 "k1"
                         eq_refl eq_refl eq_refl eq_refl))).
Defined.

Lemma account_wildcard_origin_witness :
  BillingService.origin_matches ("api" ++ "." ++ "shop.example")
    (BillingAccount.mk "acc" (Some ["k1"]) (Some ["*." ++ "shop.example"]) 100%float
       (Num 0%float))
  = true.
Proof.
  apply (proj2 (account_wildcard_origin
                  (BillingAccount.mk "acc" (Some ["k1"]) (Some ["*." ++ "shop.example"])
                     100%float (Num 0%float))
                  "shop.example" ("api" ++ "." ++ "shop.example") eq_refl)).
  right. exists "api". reflexivity.
Defined.

Lemma charge_inherited_id_throws_witness :
  BillingService.charge keyed_service (BillingService.AccountId "constructor") "tx"
  = (keyed_service, Throw).
Proof.
  apply (charge_inherited_id_throws keyed_service keyed_table "constructor" "tx");
    reflexivity.
Defined.

Lemma accounts_update_stops_at_inherited_id_witness :
  let ctor := BillingAccount.mkProps "constructor" None None (Some 7%float) None in
  let late := BillingAccount.mkProps "late" None None (Some 1%float) None in
  BillingService.onAccountsUpdate [acc_props; ctor; late] fresh_service
  = BillingService.onAccountsUpdate [acc_props] fresh_service
  /\ BillingService.accounts
       (BillingService.onAccountsUpdate [acc_props; ctor; late] fresh_service)
       ≫= BillingService.get "constructor"
     = None.
Proof.
  intros ctor late.
  apply (accounts_update_stops_at_inherited_id fresh_service [acc_props] [late] ctor).
  - repeat constructor.
  - reflexivity.
  - reflexivity.
Defined.
